(** * QPanda-lite circuit builder: [qpandalite/circuit_builder/qcircuit.py]

    A shallow embedding of the circuit/fragment template model and the
    properties stated about it.

    Python objects are mutable and compared by identity, so circuits live
    in an explicit store: a location is the index of an object in the
    store, allocation appends to it, and every method is a function from
    store to outcome and store.  An exception leaves the store as it was
    when raised (Python does not roll back).

    Conventions of the model:
    - a qubit is an integer ([Z]); a qubit map is a [dict] with integer
      keys, kept in insertion order;
    - a [str] is a sequence of code points below 256 ([string]);
    - the interpreter's recursion limit is the [depth] argument of the two
      recursive operations ([assign_by_map] on nested circuits and
      [deepcopy]); running out of it is Python's [RecursionError].  The
      configurable cap on the number of digits [int()] accepts is not
      modelled. *)

From Stdlib Require Import ZArith Lia Ascii String.
From stdpp Require Import base option list gmap strings pretty.

Open Scope Z_scope.

(** ** Python values and exceptions *)

(** The Python values the model distinguishes as arguments: [None],
    [bool], [int], [list], and [dict] with integer keys, in insertion
    order. *)
#[warnings="-register-all"]
Inductive value :=
| VNone
| VBool (b : bool)
| VInt (z : Z)
| VList (l : list value)
| VDict (d : list (Z * value)).

(** [isinstance(v, int)]: [bool] is a subclass of [int]. *)
Definition isinstance_int (v : value) : bool :=
  match v with
  | VBool _ | VInt _ => true
  | _ => false
  end.

(** Truth value of an object, as [if v] tests it. *)
Definition truthy (v : value) : bool :=
  match v with
  | VNone => false
  | VBool b => b
  | VInt z => negb (z =? 0)
  | VList l => match l with [] => false | _ => true end
  | VDict d => match d with [] => false | _ => true end
  end.

(** [repr(v)]; for these values [str(v)] is the same text. *)
Fixpoint repr (v : value) : string :=
  match v with
  | VNone => "None"
  | VBool b => if b then "True" else "False"
  | VInt z => pretty z
  | VList l =>
      "[" +:+
      (fix items (l : list value) : string :=
         match l with
         | [] => ""
         | [x] => repr x
         | x :: r => repr x +:+ ", " +:+ items r
         end) l +:+ "]"
  | VDict d =>
      "{" +:+
      (fix items (d : list (Z * value)) : string :=
         match d with
         | [] => ""
         | [(k, x)] => pretty k +:+ ": " +:+ repr x
         | (k, x) :: r => pretty k +:+ ": " +:+ repr x +:+ ", " +:+ items r
         end) d +:+ "}"
  end.

(** A qubit map: a [dict] with integer keys. *)
Definition qmap := list (Z * value).

(** [k in d] *)
Fixpoint dict_contains (k : Z) (d : qmap) : bool :=
  match d with
  | [] => false
  | (k', _) :: r => if k =? k' then true else dict_contains k r
  end.

(** [d[k] = v]: an existing key keeps its place, a new one goes last. *)
Fixpoint dict_set (k : Z) (v : value) (d : qmap) : qmap :=
  match d with
  | [] => [(k, v)]
  | (k', v') :: r => if k =? k' then (k, v) :: r else (k', v') :: dict_set k v r
  end.

(** [repr] of a list of qubits and of a qubit map. *)
Definition repr_qubits (qs : list Z) : string := repr (VList (VInt <$> qs)).

Definition repr_dict (d : qmap) : string := repr (VDict d).

(** Keyword arguments: names are unique, order is the call's. *)
Definition kwargs_t := list (string * value).

Fixpoint kwargs_get (key : string) (kwargs : kwargs_t) : option value :=
  match kwargs with
  | [] => None
  | (k, v) :: r => if String.eqb key k then Some v else kwargs_get key r
  end.

(** [kwargs['expand']] if the keyword is given, else [False]. *)
Definition expand_argument (kwargs : kwargs_t) : value :=
  match kwargs_get "expand" kwargs with
  | Some v => v
  | None => VBool false
  end.

Inductive exn :=
| RuntimeError (msg : string)
| NotImplementedError
| TypeError
| ValueError
| RecursionError.

(** Outcome of a call: a returned value or a raised exception. *)
Inductive result (A : Type) :=
| Ret (a : A)
| Raise (e : exn).
Arguments Ret {A} a.
Arguments Raise {A} e.

Definition result_bind {A B} (r : result A) (k : A -> result B) : result B :=
  match r with
  | Ret a => k a
  | Raise e => Raise e
  end.

(** [try: body / except: handler] with a bare [except]. *)
Definition try_except {A} (body : result A) (handler : result A) : result A :=
  match body with
  | Ret a => Ret a
  | Raise _ => handler
  end.

(** ** Module-level helpers *)

(** [_check_qubit_overflow(qubits, n)] *)
Fixpoint _check_qubit_overflow (qubits : list Z) (n : Z) : bool :=
  match qubits with
  | [] => true
  | qubit :: rest => if qubit >=? n then false else _check_qubit_overflow rest n
  end.

(** *** The builtin [int(s)] on a [str], base 10 *)

Definition code (c : ascii) : Z := Z.of_N (N_of_ascii c).

(** White space that [int()] strips: the ASCII blanks and, among the
    other code points below 256, NEL and NBSP. *)
Definition is_space (c : ascii) : bool :=
  let n := code c in
  ((9 <=? n) && (n <=? 13)) || (n =? 32) || (n =? 133) || (n =? 160).

Definition digit_value (c : ascii) : option Z :=
  let n := code c in
  if (48 <=? n) && (n <=? 57) then Some (n - 48) else None.

Definition is_underscore (c : ascii) : bool := code c =? 95.

Fixpoint skip_space (s : string) : string :=
  match s with
  | String c r => if is_space c then skip_space r else s
  | EmptyString => s
  end.

(** The digit scan: digits accumulate, one underscore may sit between two
    digits; [prev_us] records that the previous character was an
    underscore.  Returns the value and the unread rest. *)
Fixpoint scan_digits (prev_us : bool) (acc : Z) (s : string) : option (Z * string) :=
  match s with
  | String c r =>
      match digit_value c with
      | Some d => scan_digits false (acc * 10 + d) r
      | None =>
          if is_underscore c then
            if prev_us then None else scan_digits true acc r
          else if prev_us then None else Some (acc, s)
      end
  | EmptyString => if prev_us then None else Some (acc, s)
  end.

(** The number must start with a digit (no leading underscore, at least
    one digit). *)
Definition scan_number (s : string) : option (Z * string) :=
  match s with
  | String c r =>
      match digit_value c with
      | Some d => scan_digits false d r
      | None => None
      end
  | EmptyString => None
  end.

Definition strip_sign (s : string) : bool * string :=
  match s with
  | String c r =>
      if code c =? 43 then (false, r)
      else if code c =? 45 then (true, r)
      else (false, s)
  | EmptyString => (false, s)
  end.

Definition py_int (s : string) : result Z :=
  let '(neg, s2) := strip_sign (skip_space s) in
  match scan_number s2 with
  | Some (v, rest) =>
      match skip_space rest with
      | EmptyString => Ret (if neg then - v else v)
      | String _ _ => Raise ValueError
      end
  | None => Raise ValueError
  end.

(** [s.startswith('q')] and [s[1:]] *)
Definition startswith_q (s : string) : bool :=
  match s with
  | String c _ => code c =? 113
  | EmptyString => false
  end.

Definition slice_from_1 (s : string) : string :=
  match s with
  | String _ r => r
  | EmptyString => EmptyString
  end.

(** [_check_qubit_key(qubit_key)] *)
Definition _check_qubit_key (qubit_key : string) : result (option Z) :=
  if negb (startswith_q qubit_key) then Ret None
  else
    try_except
      (result_bind (py_int (slice_from_1 qubit_key)) (fun q => Ret (Some q)))
      (Ret None).

(** *** The texts [int()] accepts, described apart from the parser *)

Definition is_digit (c : ascii) : bool := (48 <=? code c) && (code c <=? 57).

Fixpoint all_chars (p : ascii -> bool) (s : string) : bool :=
  match s with
  | EmptyString => true
  | String c r => p c && all_chars p r
  end.

(** The number a string of digits denotes, by the weight of each place. *)
Fixpoint decimal_value (s : string) : Z :=
  match s with
  | EmptyString => 0
  | String c r => (code c - 48) * 10 ^ Z.of_nat (String.length r) + decimal_value r
  end.

(** A non-empty run of digits. *)
Definition digit_group (g : string) : Prop :=
  g <> EmptyString /\ all_chars is_digit g = true.

(** Further groups of digits, each led by one underscore. *)
Fixpoint underscore_groups (groups : list string) : string :=
  match groups with
  | [] => EmptyString
  | g :: r => String "_" (g +:+ underscore_groups r)
  end.

Fixpoint concat_groups (groups : list string) : string :=
  match groups with
  | [] => EmptyString
  | g :: r => g +:+ concat_groups r
  end.

Inductive sign := NoSign | Plus | Minus.

Definition sign_text (sg : sign) : string :=
  match sg with
  | NoSign => EmptyString
  | Plus => "+"
  | Minus => "-"
  end.

Definition apply_sign (sg : sign) (v : Z) : Z :=
  match sg with
  | Minus => - v
  | _ => v
  end.

(** An integer literal in base 10 as [int()] takes it: white space, an
    optional sign, digits in groups separated by single underscores,
    white space. *)
Inductive int_literal : string -> Z -> Prop :=
| int_literal_intro (ws1 ws2 g : string) (sg : sign) (groups : list string) :
    all_chars is_space ws1 = true ->
    all_chars is_space ws2 = true ->
    digit_group g ->
    Forall digit_group groups ->
    int_literal
      (ws1 +:+ sign_text sg +:+ g +:+ underscore_groups groups +:+ ws2)
      (apply_sign sg (decimal_value (g +:+ concat_groups groups))).


(** [_parse_qubit_map_from_kwargs]: the loop over the keys of [kwargs]. *)
Fixpoint parse_kwargs_loop (keys : kwargs_t) (qubit_map : qmap) : result qmap :=
  match keys with
  | [] => Ret qubit_map
  | (key, assigned_q) :: rest =>
      if String.eqb key "n_qubit" then parse_kwargs_loop rest qubit_map
      else
        result_bind (_check_qubit_key key) (fun q =>
          match q with
          | None =>
              Raise (RuntimeError
                ("Input must be q+integer=integer style (e.g. q1=1, etc.). User input: "
                   +:+ key))
          | Some q =>
              if negb (isinstance_int assigned_q) then
                Raise (RuntimeError
                  ("Input must be q+integer=integer style (e.g. q1=1, etc.). User input: "
                     +:+ key +:+ ", assigned_q: " +:+ repr assigned_q))
              else parse_kwargs_loop rest (dict_set q assigned_q qubit_map)
          end)
  end.

Definition _parse_qubit_map_from_kwargs (kwargs : kwargs_t) : result qmap :=
  parse_kwargs_loop kwargs [].

(** [for i, qubit in enumerate(qubit_list): qubit_map[i] = qubit] *)
Fixpoint enumerate_loop (i : Z) (qubit_list : list value) (qubit_map : qmap) : qmap :=
  match qubit_list with
  | [] => qubit_map
  | qubit :: rest => enumerate_loop (i + 1) rest (dict_set i qubit qubit_map)
  end.

(** [_parse_qubit_map_from_list], on the tuple [args] *)
Definition _parse_qubit_map_from_list (args : list value) : result qmap :=
  match args with
  | [] => Raise (RuntimeError "Fatal!!! Unexpected error.")
  | arg0 :: _ =>
      let qubit_list := match arg0 with VList l => l | _ => args end in
      Ret (enumerate_loop 0 qubit_list [])
  end.

(** [_check_qubit_map]: the loop over [self.involved_qubits]. *)
Fixpoint check_qubit_map_loop (involved : list Z) (qubit_map : qmap) : bool :=
  match involved with
  | [] => true
  | qubit :: rest =>
      if negb (dict_contains qubit qubit_map) then false
      else check_qubit_map_loop rest qubit_map
  end.

(** [qubit in qubits] on a list *)
Fixpoint list_contains (qubit : Z) (qubits : list Z) : bool :=
  match qubits with
  | [] => false
  | q :: rest => if qubit =? q then true else list_contains qubit rest
  end.

(** [for qubit in qubits: if qubit not in involved: involved.append(qubit)] *)
Fixpoint merge_qubits (involved : list Z) (qubits : list Z) : list Z :=
  match qubits with
  | [] => involved
  | qubit :: rest =>
      merge_qubits
        (if negb (list_contains qubit involved) then involved ++ [qubit] else involved)
        rest
  end.

Definition newline : string := String (ascii_of_nat 10) EmptyString.

(** The message of [assign_by_map]'s error, from the two interpolated
    values. *)
Definition not_cover_message (expect : list Z) (get : qmap) : string :=
  "Qubit map does not cover all involved qubits. "
  +:+ "Every involved qubits must be a key in qubit_map." +:+ newline
  +:+ "Expect: " +:+ repr_qubits expect +:+ ", Get: " +:+ repr_dict get.

(** ** State and exceptions *)

Definition state_exn (S A : Type) : Type := S -> result A * S.

Definition st_ret {S A} (a : A) : state_exn S A := fun s => (Ret a, s).

Definition st_bind {S A B} (m : state_exn S A) (k : A -> state_exn S B) : state_exn S B :=
  fun s =>
    match m s with
    | (Ret a, s') => k a s'
    | (Raise e, s') => (Raise e, s')
    end.

Definition raise {S A} (e : exn) : state_exn S A := fun s => (Raise e, s).

Definition lift_result {S A} (r : result A) : state_exn S A := fun s => (r, s).

Declare Scope py_scope.
Delimit Scope py_scope with py.
Notation "x <- m ;; k" := (st_bind m (fun x => k))
  (at level 100, m at next level, right associativity) : py_scope.
Notation "m ;; k" := (st_bind m (fun _ => k))
  (at level 100, right associativity) : py_scope.

(** ** The gate interface *)

(** Modelled from the spec: the gate module [basic_gates] ([Gate], [Rx],
    [Ry], [Rz]) is not among the sources.  A gate exposes
    [involved_qubits()], a sequence of qubits, and [assign_by_map(map)],
    which returns a new gate bound by the map; the constructors take a
    qubit and an angle. *)
Class GateContract (Gate Angle : Type) := {
  gate_involved_qubits : Gate -> list Z;
  gate_assign_by_map : qmap -> Gate -> Gate;
  Rx : Z -> Angle -> Gate;
  Ry : Z -> Angle -> Gate;
  Rz : Z -> Angle -> Gate
}.

(** A location in the store: the identity of a circuit object. *)
Abbreviation loc := nat.

(** The class of a circuit object, as [isinstance] sees it. *)
Inductive class_tag := Circuit | Fragment.

Definition is_Fragment (c : class_tag) : bool :=
  match c with Fragment => true | Circuit => false end.

Section Circuits.
Context {Gate Angle : Type} `{!GateContract Gate Angle}.

(** An entry of [gate_list]: a gate, or a reference to a nested
    circuit. *)
Inductive entry :=
| EGate (g : Gate)
| ECirc (l : loc).

(** The attributes of a [Circuit] (or [Fragment]) instance. *)
Record circuit := MkCircuit {
  class_of : class_tag;
  name : option string;
  gate_list : list entry;
  involved_qubits : list Z;
  fragment : bool;
  expand : bool;
  mapping : option qmap
}.

(** The store: the object at index [l] is the one located at [l]. *)
Abbreviation heap := (list circuit).

(** [Circuit.__init__(self, name)]; an empty name is falsy. *)
Definition Circuit_init (name : option string) : circuit :=
  {| class_of := Circuit;
     name := match name with
             | Some EmptyString => None
             | _ => name
             end;
     gate_list := [];
     involved_qubits := [];
     fragment := false;
     expand := true;
     mapping := None |}.

Definition set_gate_list (gl : list entry) (c : circuit) : circuit :=
  {| class_of := class_of c; name := name c; gate_list := gl;
     involved_qubits := involved_qubits c; fragment := fragment c;
     expand := expand c; mapping := mapping c |}.

Definition set_involved_qubits (qs : list Z) (c : circuit) : circuit :=
  {| class_of := class_of c; name := name c; gate_list := gate_list c;
     involved_qubits := qs; fragment := fragment c;
     expand := expand c; mapping := mapping c |}.

Definition set_fragment (b : bool) (c : circuit) : circuit :=
  {| class_of := class_of c; name := name c; gate_list := gate_list c;
     involved_qubits := involved_qubits c; fragment := b;
     expand := expand c; mapping := mapping c |}.

Definition set_expand (b : bool) (c : circuit) : circuit :=
  {| class_of := class_of c; name := name c; gate_list := gate_list c;
     involved_qubits := involved_qubits c; fragment := fragment c;
     expand := b; mapping := mapping c |}.

Definition set_mapping (m : option qmap) (c : circuit) : circuit :=
  {| class_of := class_of c; name := name c; gate_list := gate_list c;
     involved_qubits := involved_qubits c; fragment := fragment c;
     expand := expand c; mapping := m |}.

Definition set_class (k : class_tag) (c : circuit) : circuit :=
  {| class_of := k; name := name c; gate_list := gate_list c;
     involved_qubits := involved_qubits c; fragment := fragment c;
     expand := expand c; mapping := mapping c |}.

(** [Fragment.__init__(self, name)] *)
Definition Fragment_init (name : option string) : circuit :=
  set_expand false (set_fragment true (set_class Fragment (Circuit_init name))).

#[global] Instance circuit_inhabited : Inhabited circuit := populate (Circuit_init None).

Definition M (A : Type) : Type := state_exn heap A.

(** Reading an object, updating one in place, allocating one. *)
Definition read (l : loc) : M circuit := fun h => (Ret (h !!! l), h).

Definition update (l : loc) (f : circuit -> circuit) : M unit :=
  fun h => (Ret tt, alter f l h).

Definition alloc (c : circuit) : M loc := fun h => (Ret (length h), h ++ [c]).

Local Open Scope py_scope.

(** ** Methods of [Circuit] *)

(** [_check_qubit_map(self, qubit_map)] *)
Definition _check_qubit_map (self : loc) (qubit_map : qmap) : M bool :=
  c <- read self ;;
  st_ret (check_qubit_map_loop (involved_qubits c) qubit_map).

(** [gate_object.involved_qubits()].  On a gate this is the gate's
    method; on a circuit [involved_qubits] is a list attribute, and
    calling a list raises [TypeError]. *)
Definition call_involved_qubits (gate_object : entry) : M (list Z) :=
  match gate_object with
  | EGate g => st_ret (gate_involved_qubits g)
  | ECirc _ => raise TypeError
  end.

(** [_append_gate(self, gate_object)] *)
Definition _append_gate (self : loc) (gate_object : entry) : M unit :=
  qubits <- call_involved_qubits gate_object ;;
  update self (fun c => set_gate_list (gate_list c ++ [gate_object]) c) ;;
  update self (fun c => set_involved_qubits (merge_qubits (involved_qubits c) qubits) c).

(** The loop of [assign_by_map] over a snapshot of [self.gate_list]
    ([ret] is a fresh object, so the list iterated is never the one
    appended to); [gate_assign] is [gate.assign_by_map(qubit_map)]. *)
Fixpoint assign_gates (gate_assign : entry -> M entry) (ret : loc)
    (gates : list entry) : M unit :=
  match gates with
  | [] => st_ret tt
  | gate :: rest =>
      assigned_gate <- gate_assign gate ;;
      _append_gate ret assigned_gate ;;
      assign_gates gate_assign ret rest
  end.

(** [assign_by_map(self, qubit_map)].  An entry that is a nested circuit
    answers [assign_by_map] with this same method. *)
Fixpoint assign_by_map (depth : nat) (self : loc) (qubit_map : qmap) : M loc :=
  match depth with
  | O => raise RecursionError
  | S depth' =>
      c <- read self ;;
      ret <- alloc (Circuit_init (name c)) ;;
      covered <- _check_qubit_map self qubit_map ;;
      if negb covered then
        r <- read ret ;;
        raise (RuntimeError (not_cover_message (involved_qubits r) qubit_map))
      else
        update ret (set_mapping (Some qubit_map)) ;;
        c <- read self ;;
        assign_gates
          (fun gate =>
             match gate with
             | EGate g => st_ret (EGate (gate_assign_by_map qubit_map g))
             | ECirc l =>
                 l' <- assign_by_map depth' l qubit_map ;;
                 st_ret (ECirc l')
             end)
          ret (gate_list c) ;;
        st_ret ret
  end.

(** [Circuit.assign(self, *args, **kwargs)] *)
Definition Circuit_assign (depth : nat) (self : loc) (args : list value)
    (kwargs : kwargs_t) : M loc :=
  qubit_map <-
    (if (0 <? length args)%nat
     then lift_result (_parse_qubit_map_from_list args)
     else lift_result (_parse_qubit_map_from_kwargs kwargs)) ;;
  ret <- assign_by_map depth self qubit_map ;;
  st_ret ret.

(** [Fragment.assign(self, *args, **kwargs)] *)
Definition Fragment_assign (depth : nat) (self : loc) (args : list value)
    (kwargs : kwargs_t) : M loc :=
  ret <- Circuit_assign depth self args kwargs ;;
  update ret (set_expand false) ;;
  st_ret ret.

(** [self.assign(...)], dispatched on the class of [self]. *)
Definition assign (depth : nat) (self : loc) (args : list value)
    (kwargs : kwargs_t) : M loc :=
  c <- read self ;;
  match class_of c with
  | Circuit => Circuit_assign depth self args kwargs
  | Fragment => Fragment_assign depth self args kwargs
  end.

(** *** [deepcopy]

    [copy.deepcopy], which reaches the module through
    [from .basic_gates import *].  The copy of an object is allocated,
    as an instance without attributes yet ([Circuit_init None] holds its
    place), and entered in the memo before the attributes are copied, so
    shared and cyclic references are copied once.  Gates are values here
    and are their own copies. *)
Definition copy_state : Type := heap * gmap loc loc.

Fixpoint deepcopy_entries (copy : loc -> state_exn copy_state loc)
    (entries : list entry) : state_exn copy_state (list entry) :=
  match entries with
  | [] => st_ret []
  | EGate g :: rest =>
      rest' <- deepcopy_entries copy rest ;;
      st_ret (EGate g :: rest')
  | ECirc l :: rest =>
      l' <- copy l ;;
      rest' <- deepcopy_entries copy rest ;;
      st_ret (ECirc l' :: rest')
  end.

Fixpoint deepcopy_circuit (depth : nat) (x : loc) : state_exn copy_state loc :=
  match depth with
  | O => raise RecursionError
  | S depth' =>
      fun s =>
        let '(h, memo) := s in
        match memo !! x with
        | Some y => (Ret y, s)
        | None =>
            let c := h !!! x in
            let y := length h in
            match
              deepcopy_entries (deepcopy_circuit depth') (gate_list c)
                (h ++ [Circuit_init None], <[x := y]> memo)
            with
            | (Ret gl, (h', memo')) => (Ret y, (<[y := set_gate_list gl c]> h', memo'))
            | (Raise e, s') => (Raise e, s')
            end
        end
  end.

Definition deepcopy (depth : nat) (x : loc) : M loc :=
  fun h =>
    let '(r, (h', _)) := deepcopy_circuit depth x (h, ∅) in
    (r, h').

(** [_append_circuit(self, new_circuit, expand)] *)
Definition _append_circuit (depth : nat) (self new_circuit : loc)
    (expand_arg : value) : M unit :=
  nc <- read new_circuit ;;
  if is_Fragment (class_of nc) then
    raise (RuntimeError "Append a fragment circuit without assigning qubits.")
  else
    new_circuit <-
      (if Nat.eqb new_circuit self then deepcopy depth new_circuit
       else st_ret new_circuit) ;;
    nc <- read new_circuit ;;
    update self
      (fun c => set_involved_qubits
                  (merge_qubits (involved_qubits c) (involved_qubits nc)) c) ;;
    nc <- read new_circuit ;;
    if truthy expand_arg || expand nc then
      update self (fun c => set_gate_list (gate_list c ++ gate_list nc) c)
    else
      update self (fun c => set_gate_list (gate_list c ++ [ECirc new_circuit]) c).

(** What [append] may be handed: a circuit (or fragment) object, a gate,
    or anything else. *)
Inductive pyobject :=
| OCircuit (l : loc)
| OGate (g : Gate)
| OOther (v : value).

(** [append(self, object, **kwargs)] *)
Definition append (depth : nat) (self : loc) (object : pyobject)
    (kwargs : kwargs_t) : M unit :=
  match object with
  | OCircuit l => _append_circuit depth self l (expand_argument kwargs)
  | OGate g => _append_gate self (EGate g)
  | OOther _ => raise NotImplementedError
  end.

(** The gate builders.  A method returns an object or, falling off its
    end, [None]. *)
Definition rx (self : loc) (qubit : Z) (angle : Angle) : M (option loc) :=
  _append_gate self (EGate (Rx qubit angle)) ;;
  st_ret (Some self).

Definition ry (self : loc) (qubit : Z) (angle : Angle) : M (option loc) :=
  _append_gate self (EGate (Ry qubit angle)) ;;
  st_ret (Some self).

Definition rz (self : loc) (qubit : Z) (angle : Angle) : M (option loc) :=
  _append_gate self (EGate (Rz qubit angle)) ;;
  st_ret None.

(** ** Well-formed stores *)

(** Every reference held in a [gate_list] is to an object of the store. *)
Definition entry_valid (n : nat) (e : entry) : Prop :=
  match e with
  | EGate _ => True
  | ECirc l => (l < n)%nat
  end.

Definition wf_heap (h : heap) : Prop :=
  Forall (fun c => Forall (entry_valid (length h)) (gate_list c)) h.

(** Objects below [n] are the same in [h'], which has lost nothing. *)
Definition stable (n : nat) (h h' : heap) : Prop :=
  (length h <= length h')%nat /\ forall l, (l < n)%nat -> h' !! l = h !! l.

(** [e'] is what copying the entry [e] into a store of [n] objects
    gives: the same gate, or a reference to a new object. *)
Definition entry_copy (n : nat) (e e' : entry) : Prop :=
  match e, e' with
  | EGate g, EGate g' => g = g'
  | ECirc _, ECirc l' => (n <= l')%nat
  | _, _ => False
  end.

(** While the objects of [h0] are being copied: they are unchanged, and
    the memo sends some of them to objects allocated since. *)
Definition copy_inv (h0 : heap) (s : copy_state) : Prop :=
  stable (length h0) h0 s.1
  /\ forall x y, s.2 !! x = Some y -> (x < length h0 <= y)%nat.

(** No entry of the list is a nested circuit. *)
Definition is_gate (e : entry) : bool :=
  match e with
  | EGate _ => true
  | ECirc _ => false
  end.

Definition gates_only (c : circuit) : bool := forallb is_gate (gate_list c).

(** The gates of a list bound by a map, entry by entry. *)
Definition assigned_gates (qubit_map : qmap) (gates : list entry) : list entry :=
  (fun e => match e with
            | EGate g => EGate (gate_assign_by_map qubit_map g)
            | ECirc l => ECirc l
            end) <$> gates.

Definition entry_qubits (e : entry) : list Z :=
  match e with
  | EGate g => gate_involved_qubits g
  | ECirc _ => []
  end.

(** The involved qubits that appending the entries one by one builds up. *)
Definition collect_qubits (involved : list Z) (gates : list entry) : list Z :=
  foldl (fun iq e => merge_qubits iq (entry_qubits e)) involved gates.

(** The circuit that binding [c] by [qubit_map] is to produce: a plain
    circuit of the same name, holding the bound gates, with the map
    recorded. *)
Definition bound_circuit (c : circuit) (qubit_map : qmap) : circuit :=
  {| class_of := Circuit;
     name := name (Circuit_init (name c));
     gate_list := assigned_gates qubit_map (gate_list c);
     involved_qubits := collect_qubits [] (assigned_gates qubit_map (gate_list c));
     fragment := false;
     expand := true;
     mapping := Some qubit_map |}.

(** Every object of [h] is still there, unchanged, in [h']. *)
Definition preserved (h h' : heap) : Prop :=
  forall l c, h !! l = Some c -> h' !! l = Some c.

End Circuits.

Abbreviation heap := (list circuit).

(** ** A concrete gate set *)

(** Modelled from the spec: the rotation gates of the absent module
    [basic_gates], as far as the gate interface describes them.  A gate
    acts on one qubit; binding it by a map replaces the qubit by the
    integer the map gives for it. *)
Module RotationGates.

Inductive axis := AxisX | AxisY | AxisZ.

Record gate := MkGate {
  gate_axis : axis;
  gate_qubit : Z;
  gate_angle : string
}.

Fixpoint dict_get (k : Z) (d : qmap) : option value :=
  match d with
  | [] => None
  | (k', v) :: r => if k =? k' then Some v else dict_get k r
  end.

Definition bind_qubit (m : qmap) (g : gate) : gate :=
  match dict_get (gate_qubit g) m with
  | Some (VInt q) => MkGate (gate_axis g) q (gate_angle g)
  | _ => g
  end.

#[global] Instance contract : GateContract gate string := {|
  gate_involved_qubits g := [gate_qubit g];
  gate_assign_by_map := bind_qubit;
  Rx q a := MkGate AxisX q a;
  Ry q a := MkGate AxisY q a;
  Rz q a := MkGate AxisZ q a
|}.

(** The store after [c = Circuit()]. *)
Definition fresh_store : list (circuit (Gate := gate)) := [Circuit_init None].

End RotationGates.

(** ** Stores used as concrete inputs *)

Module Scenarios.
Import RotationGates.
Local Open Scope py_scope.

(** [c = Circuit(); c.rx(0, 'a'); c.rx(1, 'b'); c.rx(2, 'c')] at
    location 0. *)
Definition three_qubit_store : list (circuit (Gate := gate)) :=
  snd ((rx 0%nat 0 "a" ;; rx 0%nat 1 "b" ;; rx 0%nat 2 "c") fresh_store).

(** [f = Fragment('f'); R = f.assign()]: the fragment at 0 and, at 1,
    the plain circuit [R] with [expand = False]. *)
Definition assigned_fragment_store : list (circuit (Gate := gate)) :=
  snd ((f <- alloc (Fragment_init (Some "f"%string)) ;;
        assign 2 f [] []) []).

(** Then [A = Circuit(); A.append(R)]: [A], at 2, holds [R] as a nested
    entry. *)
Definition nested_store : list (circuit (Gate := gate)) :=
  snd ((A <- alloc (Circuit_init None) ;;
        append 2 A (OCircuit 1%nat) []) assigned_fragment_store).

End Scenarios.

(** ** Rendering *)

(** [d[k]] on a qubit map, [None] when the key is absent. *)
Fixpoint dict_lookup (k : Z) (d : qmap) : option value :=
  match d with
  | [] => None
  | (k', v) :: r => if k =? k' then Some v else dict_lookup k r
  end.

Fixpoint spaces (n : nat) : string :=
  match n with
  | O => EmptyString
  | S n' => String " " (spaces n')
  end.

(** ['{:^25s}'.format(s)] for the width given: the text centred with
    blanks, the odd blank going to the right; a text at least as wide is
    left as it is. *)
Definition format_center (width : nat) (s : string) : string :=
  let pad := (width - String.length s)%nat in
  let left := (pad / 2)%nat in
  spaces left +:+ s +:+ spaces (pad - left).

(** [if not name] *)
Definition name_truthy (name : option string) : bool :=
  match name with
  | Some EmptyString | None => false
  | Some _ => true
  end.

(** The text of a name that is a string. *)
Definition name_text (name : option string) : string :=
  match name with
  | Some s => s
  | None => "None"
  end.

(** [if self.mapping] *)
Definition mapping_truthy (mapping : option qmap) : option qmap :=
  match mapping with
  | Some (kv :: d) => Some (kv :: d)
  | _ => None
  end.

(** The loop of [circuit_str]: [ret += '{};\n'.format(gate)]. *)
Fixpoint circuit_str_loop {E : Type} (entry_str : E -> result string)
    (gates : list E) (ret : string) : result string :=
  match gates with
  | [] => Ret ret
  | gate :: rest =>
      result_bind (entry_str gate) (fun text =>
        circuit_str_loop entry_str rest (ret +:+ text +:+ ";" +:+ newline))
  end.

Section Rendering.
Context {Gate Angle : Type} `{!GateContract Gate Angle}.

(** [str(gate)] of a gate, which the absent module [basic_gates] defines,
    and [hex(id(name))] of a name that is [None] or empty, an address of
    the running interpreter. *)
Variable gate_str : Gate -> string.
Variable hex_id : option string -> string.

(** [Circuit.__repr__(self)]; an entry that is a nested circuit is
    formatted by this same method. *)
Fixpoint Circuit_repr (depth : nat) (h : list (circuit (Gate := Gate))) (self : loc)
    : result string :=
  match depth with
  | O => Raise RecursionError
  | S depth' =>
      let c := h !!! self in
      let circuit_str :=
        circuit_str_loop
          (fun gate => match gate with
                       | EGate g => Ret (gate_str g)
                       | ECirc l => Circuit_repr depth' h l
                       end)
          (gate_list c) EmptyString in
      if fragment c then
        if negb (name_truthy (name c)) then
          Raise (RuntimeError "Fatal: Unexpected noname fragment.")
        else
          let ret := "---" +:+ format_center 25 ("Fragment " +:+ name_text (name c))
                     +:+ "---" +:+ newline in
          result_bind circuit_str (fun text => Ret (ret +:+ text))
      else if negb (expand c) then
        match mapping_truthy (mapping c) with
        | Some m =>
            if name_truthy (name c)
            then Ret (name_text (name c) +:+ " qubit_mapping: " +:+ repr_dict m)
            else Ret (hex_id (name c) +:+ " qubit_mapping: " +:+ repr_dict m)
        | None =>
            if name_truthy (name c)
            then Ret (name_text (name c) +:+ " q" +:+ repr_qubits (involved_qubits c))
            else Ret (hex_id (name c) +:+ " q" +:+ repr_qubits (involved_qubits c))
        end
      else circuit_str
  end.

(** [str(entry)] as [circuit_str] formats an entry. *)
Definition entry_str (depth : nat) (h : list (circuit (Gate := Gate)))
    (gate : entry) : result string :=
  match gate with
  | EGate g => Ret (gate_str g)
  | ECirc l => Circuit_repr depth h l
  end.

(** [circuit_str(self)] *)
Definition circuit_str (depth : nat) (h : list (circuit (Gate := Gate))) (self : loc)
    : result string :=
  circuit_str_loop (entry_str depth h) (gate_list (h !!! self)) EmptyString.

(** The lines of a list of gates: each gate's text, a semicolon, a line
    break. *)
Fixpoint gate_lines (gates : list Gate) : string :=
  match gates with
  | [] => EmptyString
  | g :: rest => gate_str g +:+ ";" +:+ newline +:+ gate_lines rest
  end.

End Rendering.

(** ** Invariants of the store *)

Section StorePredicates.
Context {Gate Angle : Type} `{!GateContract Gate Angle}.

(** The gates among the entries of a list. *)
Fixpoint gates_of (entries : list (entry (Gate := Gate))) : list Gate :=
  match entries with
  | [] => []
  | EGate g :: rest => g :: gates_of rest
  | ECirc _ :: rest => gates_of rest
  end.

(** Every qubit of every gate held by the circuit is among its involved
    qubits, which are listed once each. *)
Definition circuit_ok (c : circuit (Gate := Gate)) : Prop :=
  (forall g q, g ∈ gates_of (gate_list c) -> q ∈ gate_involved_qubits g ->
               q ∈ involved_qubits c)
  /\ NoDup (involved_qubits c).

Definition store_ok (h : list (circuit (Gate := Gate))) : Prop := Forall circuit_ok h.

(** Two entries of the same kind, holding the same gate if gates. *)
Definition same_gate (e e' : entry (Gate := Gate)) : Prop :=
  match e, e' with
  | EGate g, EGate g' => g = g'
  | ECirc _, ECirc _ => True
  | _, _ => False
  end.

End StorePredicates.

(** ** Keyword arguments, described apart from the parser *)

(** A keyword that [_parse_qubit_map_from_kwargs] rejects: not [n_qubit],
    and either not of the q<int> form or given a value that is not an
    [int]. *)
Definition bad_keyword (kv : string * value) : Prop :=
  kv.1 <> "n_qubit"%string
  /\ (_check_qubit_key kv.1 = Ret None \/ isinstance_int kv.2 = false).

(** The keywords [q0], [q1], ... for a list of targets. *)
Definition keywords_from (i : nat) (targets : list value) : kwargs_t :=
  imap (fun j v => ("q" +:+ pretty (Z.of_nat (i + j)), v)) targets.

(** The map sending position [i], [i+1], ... to the targets. *)
Definition positions_from (i : nat) (targets : list value) : qmap :=
  imap (fun j v => (Z.of_nat (i + j), v)) targets.

(** ** [QProg] *)

Module QProgram.
Section Program.
(** What [append] is given: any object. *)
Context {G : Type}.

Record QProg := MkQProg {
  n_qubit : value;
  n_cbit : value;
  gate_list : list G;
  has_measure : bool
}.

Definition empty_warning : string :=
  "A completely empty circuit instance is created. (n_qubit = n_cbit = 0)".

(** [QProg.__init__(self, n_qubit, n_cbit)]: the object and the warnings
    issued. *)
Definition init (n_qubit n_cbit : value) : QProg * list string :=
  (MkQProg n_qubit n_cbit [] false,
   if negb (truthy n_qubit) && negb (truthy n_cbit) then [empty_warning] else []).

(** [QProg.__repr__(self)] *)
Definition qprog_repr (self : QProg) : string :=
  repr (n_qubit self) +:+ " qubits" +:+ newline
  +:+ repr (n_cbit self) +:+ " cbits" +:+ newline
  +:+ pretty (Z.of_nat (length (gate_list self))) +:+ " gates" +:+ newline.

(** [QProg.append(self, gate)] *)
Definition append (self : QProg) (gate : G) : QProg :=
  MkQProg (n_qubit self) (n_cbit self) (gate_list self ++ [gate]) (has_measure self).

(** [QProg.dagger(self)]: raises, or falls off its end and returns
    [None]. *)
Definition dagger (self : QProg) : result unit :=
  if has_measure self then
    Raise (RuntimeError "Cannot inverse a classical-involved circuit.")
  else Ret tt.

End Program.
Arguments QProg : clear implicits.
End QProgram.

(** ** More stores used as concrete inputs *)

Module MoreScenarios.
Import RotationGates.
Local Open Scope py_scope.

(** [f = Fragment('f'); f.rx(0, 'a'); A = Circuit(); A.ry(1, 'b')]: the
    fragment at 0, the circuit at 1. *)
Definition fragment_store : list (circuit (Gate := gate)) :=
  snd ((f <- alloc (Fragment_init (Some "f"%string)) ;;
        rx f 0 "a" ;;
        A <- alloc (Circuit_init None) ;;
        ry A 1 "b") []).

(** Then [R = f.assign(q0=5)]: the bound circuit at 2. *)
Definition bound_fragment_store : list (circuit (Gate := gate)) :=
  snd (assign 1 0%nat [] [("q0"%string, VInt 5)] fragment_store).

(** A text for each gate, standing for [str(gate)]. *)
Definition gate_text (g : gate) : string :=
  match gate_axis g with
  | AxisX => "RX"
  | AxisY => "RY"
  | AxisZ => "RZ"
  end +:+ " q" +:+ pretty (gate_qubit g) +:+ " " +:+ gate_angle g.

End MoreScenarios.

(** * Properties *)

(** ** The overflow check *)

Lemma check_qubit_overflow_spec qubits n :
  _check_qubit_overflow qubits n = true <-> Forall (fun q => q < n) qubits.
Proof.
  induction qubits as [|q qs IH]; simpl.
  - split; [constructor | reflexivity].
  - destruct (Z.geb_spec q n) as [Hge | Hlt].
    + split; [discriminate | intros Hall; inversion Hall; lia].
    + rewrite IH. split.
      * intros Hall. constructor; [lia | exact Hall].
      * intros Hall. inversion Hall; assumption.
Qed.

(** C5, as the code has it: both [check_qubit_overflow([0,1,2], 3)] and
    [check_qubit_overflow([0,1], 3)] return [True], every index being
    strictly less than 3; an index equal to the bound, as in
    [check_qubit_overflow([0,1,3], 3)], gives [False]. *)
Theorem check_qubit_overflow_examples :
  _check_qubit_overflow [0; 1; 2] 3 = true
  /\ _check_qubit_overflow [0; 1] 3 = true
  /\ _check_qubit_overflow [0; 1; 3] 3 = false.
Proof. repeat split. Qed.

(** C5 as stated fails: the first call does not return [False]. *)
Lemma check_qubit_overflow_not_false :
  ~ (_check_qubit_overflow [0; 1; 2] 3 = false
     /\ _check_qubit_overflow [0; 1] 3 = true).
Proof. intros [H _]. discriminate H. Qed.

(** ** The qubit-key parser *)

Lemma string_app_cons (c : ascii) (s t : string) : String c s +:+ t = String c (s +:+ t).
Proof. reflexivity. Qed.

Lemma string_app_nil_r (s : string) : s +:+ "" = s.
Proof. induction s as [|c s IH]; [reflexivity |]. rewrite string_app_cons, IH. reflexivity. Qed.

Lemma string_app_assoc (s t u : string) : (s +:+ t) +:+ u = s +:+ (t +:+ u).
Proof.
  induction s as [|c s IH]; [reflexivity |].
  rewrite !string_app_cons, IH. reflexivity.
Qed.

Lemma string_length_app (s t : string) :
  String.length (s +:+ t) = (String.length s + String.length t)%nat.
Proof.
  induction s as [|c s IH]; [reflexivity |].
  rewrite string_app_cons. simpl. rewrite IH. reflexivity.
Qed.

Lemma decimal_value_app (a b : string) :
  decimal_value (a +:+ b)
  = decimal_value a * 10 ^ Z.of_nat (String.length b) + decimal_value b.
Proof.
  induction a as [|c a IH]; [simpl; change ("" +:+ b) with b; lia |].
  rewrite string_app_cons. cbn [decimal_value]. rewrite IH, string_length_app.
  rewrite Nat2Z.inj_add, Z.pow_add_r by lia. ring.
Qed.

(** Facts about single characters. *)
Lemma digit_value_Some (c : ascii) (d : Z) :
  digit_value c = Some d <-> is_digit c = true /\ d = code c - 48.
Proof.
  unfold digit_value, is_digit. destruct ((48 <=? code c) && (code c <=? 57)).
  - split; [intros [= <-]; auto | intros [_ ->]; reflexivity].
  - split; [discriminate | intros [? _]; discriminate].
Qed.

Lemma digit_value_None (c : ascii) : digit_value c = None <-> is_digit c = false.
Proof.
  unfold digit_value, is_digit. destruct ((48 <=? code c) && (code c <=? 57)).
  - split; discriminate.
  - split; reflexivity.
Qed.

Lemma is_digit_range (c : ascii) : is_digit c = true <-> 48 <= code c <= 57.
Proof. unfold is_digit. rewrite andb_true_iff, !Z.leb_le. reflexivity. Qed.

Lemma is_space_not_digit (c : ascii) : is_space c = true -> is_digit c = false.
Proof.
  unfold is_space. intros Hs. apply not_true_iff_false. rewrite is_digit_range.
  rewrite !orb_true_iff, andb_true_iff, !Z.leb_le, !Z.eqb_eq in Hs. lia.
Qed.

Lemma is_space_not_underscore (c : ascii) : is_space c = true -> is_underscore c = false.
Proof.
  unfold is_space, is_underscore. intros Hs. apply Z.eqb_neq.
  rewrite !orb_true_iff, andb_true_iff, !Z.leb_le, !Z.eqb_eq in Hs. lia.
Qed.

Lemma is_space_not_sign (c : ascii) :
  is_space c = true -> (code c =? 43) = false /\ (code c =? 45) = false.
Proof.
  unfold is_space. intros Hs. rewrite !Z.eqb_neq.
  rewrite !orb_true_iff, andb_true_iff, !Z.leb_le, !Z.eqb_eq in Hs. lia.
Qed.

Lemma is_digit_not_space (c : ascii) : is_digit c = true -> is_space c = false.
Proof.
  intros Hd. destruct (is_space c) eqn:Hs; [| reflexivity].
  apply is_space_not_digit in Hs. congruence.
Qed.

Lemma is_digit_not_sign (c : ascii) :
  is_digit c = true -> (code c =? 43) = false /\ (code c =? 45) = false.
Proof. rewrite is_digit_range, !Z.eqb_neq. lia. Qed.

Lemma code_inj (c c' : ascii) : code c = code c' -> c = c'.
Proof.
  unfold code. intros Hc. apply N2Z.inj in Hc.
  rewrite <- (ascii_N_embedding c), <- (ascii_N_embedding c'), Hc. reflexivity.
Qed.

(** White space. *)
Lemma skip_space_app (ws t : string) :
  all_chars is_space ws = true -> skip_space (ws +:+ t) = skip_space t.
Proof.
  induction ws as [|c ws IH]; [reflexivity |]. cbn [all_chars].
  intros [Hc Hws]%andb_true_iff. rewrite string_app_cons. cbn [skip_space].
  rewrite Hc. auto.
Qed.

Lemma skip_space_split (s : string) :
  exists ws, s = ws +:+ skip_space s /\ all_chars is_space ws = true.
Proof.
  induction s as [|c s (ws & Hs & Hws)]; [exists ""; auto |].
  simpl. destruct (is_space c) eqn:Hc.
  - exists (String c ws). rewrite string_app_cons, <- Hs. simpl.
    rewrite Hc, Hws. auto.
  - exists "". auto.
Qed.

Lemma skip_space_empty (s : string) :
  skip_space s = "" <-> all_chars is_space s = true.
Proof.
  induction s as [|c s IH]; simpl; [tauto |].
  destruct (is_space c); simpl; [exact IH |]. split; discriminate.
Qed.

(** The digit scan. *)
Lemma scan_digits_run (g : string) :
  all_chars is_digit g = true ->
  forall (prev_us : bool) (acc : Z) (rest : string),
    g <> "" \/ prev_us = false ->
    scan_digits prev_us acc (g +:+ rest)
    = scan_digits false (acc * 10 ^ Z.of_nat (String.length g) + decimal_value g) rest.
Proof.
  induction g as [|c g IH]; intros Hg prev_us acc rest Hne.
  - destruct Hne as [Hne | ->]; [congruence |].
    change ("" +:+ rest) with rest. simpl. f_equal. lia.
  - simpl in Hg. apply andb_true_iff in Hg as [Hc Hg].
    rewrite string_app_cons. cbn [scan_digits].
    assert (digit_value c = Some (code c - 48)) as -> by (apply digit_value_Some; auto).
    rewrite (IH Hg) by auto. f_equal. cbn [decimal_value String.length].
    rewrite Nat2Z.inj_succ, Z.pow_succ_r by lia. ring.
Qed.

Lemma scan_digits_groups (groups : list string) :
  Forall digit_group groups ->
  forall (acc : Z) (ws : string),
    all_chars is_space ws = true ->
    scan_digits false acc (underscore_groups groups +:+ ws)
    = Some (acc * 10 ^ Z.of_nat (String.length (concat_groups groups))
            + decimal_value (concat_groups groups), ws).
Proof.
  induction 1 as [|g groups [Hne Hg] _ IH]; intros acc ws Hws.
  - change (underscore_groups [] +:+ ws) with ws.
    cbn [concat_groups String.length decimal_value].
    replace (acc * 10 ^ Z.of_nat 0 + 0) with acc by (simpl; lia).
    destruct ws as [|c ws]; [reflexivity |]. simpl in Hws.
    apply andb_true_iff in Hws as [Hc _]. simpl.
    assert (digit_value c = None) as ->
      by (apply digit_value_None, is_space_not_digit, Hc).
    rewrite (is_space_not_underscore c Hc). reflexivity.
  - cbn [underscore_groups concat_groups]. rewrite string_app_cons. cbn [scan_digits].
    change (digit_value "_") with (@None Z). change (is_underscore "_") with true. cbn iota.
    rewrite string_app_assoc, (scan_digits_run g Hg) by auto.
    rewrite (IH _ ws Hws). f_equal. f_equal.
    rewrite decimal_value_app, string_length_app, Nat2Z.inj_add, Z.pow_add_r by lia. ring.
Qed.

Lemma scan_digits_sound (s : string) :
  forall (prev_us : bool) (acc v : Z) (rest : string),
    scan_digits prev_us acc s = Some (v, rest) ->
    exists g groups,
      all_chars is_digit g = true
      /\ (prev_us = true -> g <> "")
      /\ Forall digit_group groups
      /\ s = g +:+ underscore_groups groups +:+ rest
      /\ v = acc * 10 ^ Z.of_nat (String.length (g +:+ concat_groups groups))
             + decimal_value (g +:+ concat_groups groups).
Proof.
  induction s as [|c s IH]; intros prev_us acc v rest; simpl.
  - destruct prev_us; [discriminate |]. intros [= <- <-].
    exists "", []. repeat split; try constructor; try discriminate. simpl. lia.
  - destruct (digit_value c) as [d|] eqn:Hd.
    + intros Hscan. apply digit_value_Some in Hd as [Hc ->].
      destruct (IH _ _ _ _ Hscan) as (g & groups & Hg & _ & Hgroups & -> & ->).
      exists (String c g), groups. split; [simpl; rewrite Hc, Hg; reflexivity |].
      split; [discriminate |]. split; [exact Hgroups |]. split; [reflexivity |].
      rewrite !string_app_cons. cbn [decimal_value String.length].
      rewrite Nat2Z.inj_succ, Z.pow_succ_r by lia. ring.
    + destruct (is_underscore c) eqn:Hu.
      * destruct prev_us; [discriminate |]. intros Hscan.
        destruct (IH _ _ _ _ Hscan) as (g & groups & Hg & Hne & Hgroups & -> & ->).
        exists "", (g :: groups). split; [reflexivity |]. split; [discriminate |].
        split; [constructor; [split; auto | exact Hgroups] |].
        assert (c = "_"%char) as -> by (apply code_inj, Z.eqb_eq, Hu).
        split; [| reflexivity].
        change ("" +:+ underscore_groups (g :: groups) +:+ rest)
          with (underscore_groups (g :: groups) +:+ rest).
        cbn [underscore_groups]. rewrite string_app_cons, string_app_assoc. reflexivity.
      * destruct prev_us; [discriminate |]. intros [= <- <-].
        exists "", []. repeat split; try constructor; try discriminate. simpl. lia.
Qed.

Lemma scan_number_sound (s : string) (v : Z) (rest : string) :
  scan_number s = Some (v, rest) ->
  exists g groups,
    digit_group g /\ Forall digit_group groups
    /\ s = g +:+ underscore_groups groups +:+ rest
    /\ v = decimal_value (g +:+ concat_groups groups).
Proof.
  destruct s as [|c s]; simpl; [discriminate |].
  destruct (digit_value c) as [d|] eqn:Hd; [| discriminate].
  intros Hscan. apply digit_value_Some in Hd as [Hc ->].
  destruct (scan_digits_sound _ _ _ _ _ Hscan) as (g & groups & Hg & _ & Hgroups & -> & ->).
  exists (String c g), groups.
  split; [split; [discriminate | simpl; rewrite Hc, Hg; reflexivity] |].
  split; [exact Hgroups |]. split; [reflexivity |].
  rewrite !string_app_cons. cbn [decimal_value]. reflexivity.
Qed.

Lemma scan_number_complete (g : string) (groups : list string) (ws : string) :
  digit_group g -> Forall digit_group groups -> all_chars is_space ws = true ->
  scan_number (g +:+ underscore_groups groups +:+ ws)
  = Some (decimal_value (g +:+ concat_groups groups), ws).
Proof.
  intros [Hne Hg] Hgroups Hws. destruct g as [|c g]; [congruence |].
  simpl in Hg. apply andb_true_iff in Hg as [Hc Hg].
  rewrite string_app_cons. cbn [scan_number].
  assert (digit_value c = Some (code c - 48)) as -> by (apply digit_value_Some; auto).
  rewrite (scan_digits_run g Hg) by auto.
  rewrite (scan_digits_groups groups Hgroups _ ws Hws). f_equal. f_equal.
  rewrite string_app_cons. cbn [decimal_value].
  rewrite decimal_value_app, string_length_app, Nat2Z.inj_add, Z.pow_add_r by lia. ring.
Qed.

Lemma strip_sign_sound (s s2 : string) (neg : bool) :
  strip_sign s = (neg, s2) ->
  exists sg, s = sign_text sg +:+ s2
             /\ forall v, (if neg then - v else v) = apply_sign sg v.
Proof.
  destruct s as [|c s]; simpl.
  - intros [= <- <-]. exists NoSign. auto.
  - destruct (code c =? 43) eqn:Hplus; [| destruct (code c =? 45) eqn:Hminus].
    + intros [= <- <-]. exists Plus.
      assert (c = "+"%char) as -> by (apply code_inj, Z.eqb_eq, Hplus). auto.
    + intros [= <- <-]. exists Minus.
      assert (c = "-"%char) as -> by (apply code_inj, Z.eqb_eq, Hminus). auto.
    + intros [= <- <-]. exists NoSign. auto.
Qed.

(** [int()] accepts exactly the integer literals, with their value. *)
Lemma py_int_spec (s : string) (n : Z) : py_int s = Ret n <-> int_literal s n.
Proof.
  split.
  - unfold py_int. destruct (skip_space_split s) as (ws1 & Hs & Hws1).
    destruct (strip_sign (skip_space s)) as [neg s2] eqn:Hsign.
    destruct (strip_sign_sound _ _ _ Hsign) as (sg & Hsg & Hval).
    destruct (scan_number s2) as [[v rest]|] eqn:Hscan; [| discriminate].
    destruct (scan_number_sound _ _ _ Hscan) as (g & groups & Hg & Hgroups & -> & ->).
    destruct (skip_space rest) eqn:Hrest; [| discriminate].
    intros [= <-]. rewrite Hval, Hs, Hsg.
    constructor; auto. apply skip_space_empty, Hrest.
  - intros [ws1 ws2 g sg groups Hws1 Hws2 Hg Hgroups].
    pose proof Hg as [Hne Hdig]. destruct g as [|c g]; [congruence |].
    simpl in Hdig. apply andb_true_iff in Hdig as [Hc Hdig].
    unfold py_int. rewrite (skip_space_app ws1 _ Hws1).
    assert (strip_sign (skip_space (sign_text sg +:+ String c g
                                      +:+ underscore_groups groups +:+ ws2))
            = (match sg with Minus => true | _ => false end,
               String c g +:+ underscore_groups groups +:+ ws2)) as ->.
    { destruct (is_digit_not_sign c Hc) as [Hp Hm].
      destruct sg; simpl.
      - change ("" +:+ String c g +:+ underscore_groups groups +:+ ws2)
          with (String c (g +:+ underscore_groups groups +:+ ws2)).
        simpl. rewrite (is_digit_not_space c Hc). simpl. rewrite Hp, Hm. reflexivity.
      - reflexivity.
      - reflexivity. }
    rewrite (scan_number_complete _ groups ws2 Hg Hgroups Hws2).
    apply skip_space_empty in Hws2. rewrite Hws2. destruct sg; reflexivity.
Qed.

Lemma startswith_q_spec (key : string) :
  startswith_q key = true <-> exists rest, key = String "q" rest.
Proof.
  destruct key as [|c key]; simpl.
  - split; [discriminate | intros [rest Hrest]; discriminate].
  - rewrite Z.eqb_eq. split.
    + intros Hc. exists key. f_equal. apply code_inj. exact Hc.
    + intros [rest [= -> _]]. reflexivity.
Qed.

Lemma check_qubit_key_Some (key : string) (n : Z) :
  _check_qubit_key key = Ret (Some n)
  <-> exists rest, key = String "q" rest /\ int_literal rest n.
Proof.
  unfold _check_qubit_key. destruct (startswith_q key) eqn:Hq; simpl.
  - apply startswith_q_spec in Hq as [rest ->]. simpl.
    destruct (py_int rest) as [m|e] eqn:Hint; simpl.
    + apply py_int_spec in Hint. split.
      * intros [= <-]. eauto.
      * intros (rest' & [= <-] & Hlit). apply py_int_spec in Hlit, Hint. congruence.
    + split; [discriminate |].
      intros (rest' & [= <-] & Hlit). apply py_int_spec in Hlit. congruence.
  - split; [discriminate |]. intros (rest & -> & _). discriminate Hq.
Qed.

Lemma check_qubit_key_returns (key : string) : exists r, _check_qubit_key key = Ret r.
Proof.
  unfold _check_qubit_key. destruct (negb (startswith_q key)); [eauto |].
  destruct (py_int (slice_from_1 key)); simpl; eauto.
Qed.

Lemma plain_qubit_key_literal (g : string) : digit_group g -> int_literal g (decimal_value g).
Proof.
  intros Hg.
  pose proof (int_literal_intro "" "" g NoSign [] eq_refl eq_refl Hg (Forall_nil_2 _)) as Hlit.
  change ("" +:+ sign_text NoSign +:+ g +:+ underscore_groups [] +:+ "")
    with (g +:+ "") in Hlit.
  cbn [apply_sign concat_groups] in Hlit. rewrite string_app_nil_r in Hlit. exact Hlit.
Qed.



Section CircuitProperties.
Context {Gate Angle : Type} `{!GateContract Gate Angle}.
Implicit Types (h : list (circuit (Gate := Gate))) (c : circuit (Gate := Gate)).
Local Open Scope py_scope.

(** *** Frames *)

Lemma stable_refl n h : stable n h h.
Proof. split; [lia | reflexivity]. Qed.

Lemma stable_trans n h1 h2 h3 : stable n h1 h2 -> stable n h2 h3 -> stable n h1 h3.
Proof.
  intros [Hl1 H1] [Hl2 H2]. split; [lia |].
  intros l Hl. rewrite H2, H1; auto.
Qed.

Lemma stable_mono n m h h' : (n <= m)%nat -> stable m h h' -> stable n h h'.
Proof. intros Hnm [Hl H]. split; [exact Hl |]. intros l Hl'. apply H. lia. Qed.

Lemma stable_alloc n h c : (n <= length h)%nat -> stable n h (h ++ [c]).
Proof.
  intros Hn. split.
  - rewrite length_app. simpl. lia.
  - intros l Hl. apply lookup_app_l. lia.
Qed.

Lemma stable_alter n h l (f : circuit -> circuit) :
  (n <= l)%nat -> stable n h (alter f l h).
Proof.
  intros Hn. split.
  - rewrite length_alter. lia.
  - intros l' Hl'. apply list_lookup_alter_ne. lia.
Qed.

Lemma stable_preserved h h' : stable (length h) h h' -> preserved h h'.
Proof.
  intros [_ H] l c Hl. rewrite H; [exact Hl |].
  eapply lookup_lt_Some; eassumption.
Qed.

Lemma lookup_total_stable n h h' l :
  stable n h h' -> (l < n)%nat -> h' !!! l = h !!! l.
Proof.
  intros [_ H] Hl. rewrite !list_lookup_total_alt, H; auto.
Qed.

End CircuitProperties.

Ltac run_py :=
  unfold st_bind, st_ret, raise, lift_result, read, update, alloc; simpl.

Section AssignProperties.
Context {Gate Angle : Type} `{!GateContract Gate Angle}.
Implicit Types (h : list (circuit (Gate := Gate))) (c : circuit (Gate := Gate)).
Local Open Scope py_scope.

Lemma lookup_total_snoc_old h c (l : nat) :
  (l < length h)%nat -> (h ++ [c]) !!! l = h !!! l.
Proof. intros Hl. apply lookup_total_app_l. exact Hl. Qed.

Lemma lookup_total_snoc_new h c : (h ++ [c]) !!! length h = c.
Proof.
  rewrite lookup_total_app_r by lia. rewrite Nat.sub_diag. reflexivity.
Qed.

Lemma alter_snoc_new h c (f : circuit -> circuit) :
  alter f (length h) (h ++ [c]) = h ++ [f c].
Proof.
  rewrite alter_app_r_alt by lia. rewrite Nat.sub_diag. reflexivity.
Qed.

(** *** The builders *)

(** C8: [rx] and [ry] return [self]; [rz] appends its gate as they do
    but returns [None]. *)
Theorem builders_return_value h (self : loc) (qubit : Z) (angle : Angle) :
  fst (rx self qubit angle h) = Ret (Some self)
  /\ fst (ry self qubit angle h) = Ret (Some self)
  /\ fst (rz self qubit angle h) = Ret None
  /\ snd (rz self qubit angle h) = snd (_append_gate self (EGate (Rz qubit angle)) h).
Proof. repeat split. Qed.

(** *** Appending a fragment *)

(** C7: appending an instance of [Fragment] raises, whatever the
    [expand] argument, and leaves the store, hence the receiving
    circuit, as it was. *)
Theorem append_fragment_raises (depth : nat) h (A f : loc) (kwargs : kwargs_t) :
  class_of (h !!! f) = Fragment ->
  append depth A (OCircuit f) kwargs h
  = (Raise (RuntimeError "Append a fragment circuit without assigning qubits."), h).
Proof.
  intros Hf. unfold append, _append_circuit. run_py. rewrite Hf. reflexivity.
Qed.

(** *** An incomplete map *)

(** C3: when the map misses an involved qubit, [assign_by_map] raises
    before any gate is appended; the message is built from the involved
    qubits of the new, still empty circuit, so it reads [Expect: []]. *)
Theorem assign_by_map_incomplete (depth : nat) h (self : loc) (qubit_map : qmap) :
  (self < length h)%nat ->
  check_qubit_map_loop (involved_qubits (h !!! self)) qubit_map = false ->
  assign_by_map (S depth) self qubit_map h
  = (Raise (RuntimeError (not_cover_message [] qubit_map)),
     h ++ [Circuit_init (name (h !!! self))]).
Proof.
  intros Hself Hcheck. simpl. unfold _check_qubit_map. run_py.
  rewrite lookup_total_snoc_old by exact Hself. rewrite Hcheck. simpl.
  rewrite lookup_total_snoc_new. reflexivity.
Qed.

(** The same outcome, for use in further proofs. *)
Lemma assign_by_map_uncovered (depth : nat) h (self : loc) (qubit_map : qmap) :
  (self < length h)%nat ->
  check_qubit_map_loop (involved_qubits (h !!! self)) qubit_map = false ->
  assign_by_map (S depth) self qubit_map h
  = (Raise (RuntimeError (not_cover_message [] qubit_map)),
     h ++ [Circuit_init (name (h !!! self))]).
Proof.
  intros Hself Hcheck. simpl. unfold _check_qubit_map. run_py.
  rewrite lookup_total_snoc_old by exact Hself. rewrite Hcheck. simpl.
  rewrite lookup_total_snoc_new. reflexivity.
Qed.

(** *** No arguments *)

Lemma parse_kwargs_only_n_qubit (kwargs : kwargs_t) (qubit_map : qmap) :
  Forall (fun kv => kv.1 = "n_qubit"%string) kwargs ->
  parse_kwargs_loop kwargs qubit_map = Ret qubit_map.
Proof.
  induction 1 as [|[k v] kwargs Hk _ IH]; simpl; [reflexivity |].
  simpl in Hk. subst k. simpl. exact IH.
Qed.

Lemma check_qubit_map_empty_map (involved : list Z) :
  involved <> [] -> check_qubit_map_loop involved [] = false.
Proof. destruct involved; [congruence | reflexivity]. Qed.

(** C9, as the code has it: with no positional argument and no keyword
    other than [n_qubit], [assign] parses the empty map, and on a
    circuit with an involved qubit [assign_by_map] raises for the
    uncovered map. *)
Theorem assign_without_arguments (depth : nat) h (self : loc) (kwargs : kwargs_t) :
  (self < length h)%nat ->
  involved_qubits (h !!! self) <> [] ->
  Forall (fun kv => kv.1 = "n_qubit"%string) kwargs ->
  assign (S depth) self [] kwargs h
  = (Raise (RuntimeError (not_cover_message [] [])),
     h ++ [Circuit_init (name (h !!! self))]).
Proof.
  intros Hself Hinv Hkw.
  pose proof (assign_by_map_uncovered depth h self [] Hself
                (check_qubit_map_empty_map _ Hinv)) as Hraise.
  unfold assign, Fragment_assign, Circuit_assign, _parse_qubit_map_from_kwargs.
  unfold st_bind at 1. unfold read at 1.
  destruct (class_of (h !!! self)); unfold st_bind, lift_result;
    cbn -[assign_by_map];
    rewrite (parse_kwargs_only_n_qubit kwargs [] Hkw), Hraise; reflexivity.
Qed.

(** *** [assign_by_map] leaves existing objects alone *)

Lemma append_gate_stable (n : nat) (self : loc) (gate_object : entry) h r h' :
  (n <= self)%nat -> _append_gate self gate_object h = (r, h') -> stable n h h'.
Proof.
  intros Hn. unfold _append_gate, call_involved_qubits.
  destruct gate_object; run_py; intros [= <- <-].
  - eapply stable_trans; apply stable_alter; exact Hn.
  - apply stable_refl.
Qed.

Lemma assign_gates_stable (n : nat) (gate_assign : entry -> M entry) (ret : loc)
    (gates : list entry) :
  (n <= ret)%nat ->
  (forall gate h r h', gate_assign gate h = (r, h') -> stable (length h) h h') ->
  forall h r h',
    (n <= length h)%nat ->
    assign_gates gate_assign ret gates h = (r, h') -> stable n h h'.
Proof.
  intros Hn Hassign. induction gates as [|gate rest IH]; intros h r h' Hlen; simpl.
  - run_py. intros [= <- <-]. apply stable_refl.
  - unfold st_bind.
    destruct (gate_assign gate h) as [[assigned|e] h1] eqn:E1.
    + pose proof (Hassign _ _ _ _ E1) as S1.
      assert (stable n h h1) as S1' by (eapply stable_mono; eassumption).
      destruct (_append_gate ret assigned h1) as [[[]|e] h2] eqn:E2.
      * pose proof (append_gate_stable n _ _ _ _ _ Hn E2) as S2.
        intros E3. apply IH in E3.
        -- eapply stable_trans; [exact S1' |]. eapply stable_trans; eassumption.
        -- destruct S1' as [? _], S2 as [? _]. lia.
      * intros [= <- <-].
        eapply stable_trans; [exact S1' |].
        eapply append_gate_stable; [exact Hn | exact E2].
    + intros [= <- <-]. eapply stable_mono; [exact Hlen |].
      eapply Hassign; eassumption.
Qed.

(** Whatever the outcome, also through nested circuits, every object
    that existed before the call is unchanged after it. *)
Lemma assign_by_map_stable (depth : nat) :
  forall (self : loc) (qubit_map : qmap) h r h',
    assign_by_map depth self qubit_map h = (r, h') -> stable (length h) h h'.
Proof.
  induction depth as [|depth IH]; intros self qubit_map h r h'.
  - simpl. run_py. intros [= <- <-]. apply stable_refl.
  - simpl. unfold _check_qubit_map. run_py.
    destruct (negb _).
    + intros [= <- <-]. apply stable_alloc. lia.
    + match goal with
      | |- context [assign_gates ?ga ?ret ?gl ?s] =>
          destruct (assign_gates ga ret gl s) as [rr h2] eqn:E
      end.
      apply (assign_gates_stable (length h)) in E.
      * intros Hr.
        assert (h2 = h') as <- by (destruct rr; congruence).
        eapply stable_trans; [apply (stable_alloc _ h); lia |].
        eapply stable_trans; [apply stable_alter; reflexivity |]. exact E.
      * lia.
      * intros [g|l] s r0 s'.
        -- intros [= <- <-]. apply stable_refl.
        -- destruct (assign_by_map depth l qubit_map s) as [r1 s1] eqn:E1.
           apply IH in E1. intros Hr.
           assert (s1 = s') as <- by (destruct r1; congruence). exact E1.
      * rewrite length_alter, length_app. simpl. lia.
Qed.

Lemma assign_by_map_preserved (depth : nat) (self : loc) (qubit_map : qmap) h r h' :
  assign_by_map depth self qubit_map h = (r, h') -> preserved h h'.
Proof. intros E. eapply stable_preserved, assign_by_map_stable, E. Qed.

(** *** [assign] on a circuit of gates *)

Lemma append_gate_new h c' (g : Gate) :
  _append_gate (length h) (EGate g) (h ++ [c'])
  = (Ret tt,
     h ++ [set_involved_qubits
             (merge_qubits (involved_qubits c') (gate_involved_qubits g))
             (set_gate_list (gate_list c' ++ [EGate g]) c')]).
Proof.
  unfold _append_gate, call_involved_qubits. run_py.
  rewrite !alter_snoc_new. reflexivity.
Qed.

Lemma assign_gates_bound (gate_assign : entry -> M entry) (qubit_map : qmap)
    (gates : list entry) :
  (forall g s, gate_assign (EGate g) s
               = (Ret (EGate (gate_assign_by_map qubit_map g)), s)) ->
  forallb is_gate gates = true ->
  forall h c',
    assign_gates gate_assign (length h) gates (h ++ [c'])
    = (Ret tt,
       h ++ [set_involved_qubits
               (collect_qubits (involved_qubits c') (assigned_gates qubit_map gates))
               (set_gate_list (gate_list c' ++ assigned_gates qubit_map gates) c')]).
Proof.
  intros Hassign. induction gates as [|[g|l] rest IH]; simpl; intros Hgates h c'.
  - run_py. destruct c'. unfold set_involved_qubits, set_gate_list. simpl.
    rewrite app_nil_r. reflexivity.
  - unfold st_bind. rewrite Hassign, append_gate_new, (IH Hgates).
    destruct c'. unfold set_involved_qubits, set_gate_list, collect_qubits. simpl.
    rewrite <- app_assoc. reflexivity.
  - discriminate Hgates.
Qed.

Lemma assign_by_map_bound (depth : nat) h (self : loc) (qubit_map : qmap) :
  (self < length h)%nat ->
  gates_only (h !!! self) = true ->
  check_qubit_map_loop (involved_qubits (h !!! self)) qubit_map = true ->
  assign_by_map (S depth) self qubit_map h
  = (Ret (length h), h ++ [bound_circuit (h !!! self) qubit_map]).
Proof.
  intros Hself Hgates Hcheck. simpl. unfold _check_qubit_map. run_py.
  rewrite lookup_total_snoc_old by exact Hself. rewrite Hcheck. simpl.
  rewrite alter_snoc_new, lookup_total_snoc_old by exact Hself.
  rewrite (assign_gates_bound _ qubit_map); [reflexivity | reflexivity | exact Hgates].
Qed.

(** C1, as the code has it: for a circuit whose [gate_list] holds gates
    only and a map covering its involved qubits, [assign_by_map], and
    [assign] whenever its arguments parse to that map, return a new
    object, the bound circuit, allocated after every existing one; the
    store is otherwise the store before the call, so the receiver is
    not mutated. *)
Theorem assign_returns_new_circuit (depth : nat) h (self : loc) (qubit_map : qmap)
    (args : list value) (kwargs : kwargs_t) :
  (self < length h)%nat ->
  gates_only (h !!! self) = true ->
  check_qubit_map_loop (involved_qubits (h !!! self)) qubit_map = true ->
  (if (0 <? length args)%nat then _parse_qubit_map_from_list args
   else _parse_qubit_map_from_kwargs kwargs) = Ret qubit_map ->
  assign_by_map (S depth) self qubit_map h
  = (Ret (length h), h ++ [bound_circuit (h !!! self) qubit_map])
  /\ assign (S depth) self args kwargs h
     = (Ret (length h),
        h ++ [if is_Fragment (class_of (h !!! self))
              then set_expand false (bound_circuit (h !!! self) qubit_map)
              else bound_circuit (h !!! self) qubit_map])
  /\ h !! length h = None
  /\ (h ++ [bound_circuit (h !!! self) qubit_map]) !! self = h !! self.
Proof.
  intros Hself Hgates Hcheck Hparse.
  pose proof (assign_by_map_bound depth h self qubit_map Hself Hgates Hcheck) as Hbound.
  split; [exact Hbound |]. split; [| split].
  - unfold assign, Fragment_assign, Circuit_assign.
    unfold st_bind at 1. unfold read at 1.
    destruct (class_of (h !!! self)), (0 <? length args)%nat;
      unfold st_bind, lift_result;
      cbn -[assign_by_map _parse_qubit_map_from_list _parse_qubit_map_from_kwargs];
      rewrite Hparse, Hbound; try reflexivity;
      unfold update, st_ret; rewrite alter_snoc_new; reflexivity.
  - apply lookup_ge_None. lia.
  - apply lookup_app_l. exact Hself.
Qed.

End AssignProperties.

Section DeepcopyProperties.
Context {Gate Angle : Type} `{!GateContract Gate Angle}.
Implicit Types (h : list (circuit (Gate := Gate))) (c : circuit (Gate := Gate)).
Implicit Types (memo : gmap nat nat).
Local Open Scope py_scope.

Lemma stable_insert (n : nat) h (l : nat) c :
  (n <= l)%nat -> stable n h (<[l := c]> h).
Proof.
  intros Hn. split.
  - rewrite length_insert. lia.
  - intros l' Hl'. apply list_lookup_insert_ne. lia.
Qed.

Lemma memo_size_bound (n : nat) memo :
  (forall x y, memo !! x = Some y -> (x < n)%nat) -> (size memo <= n)%nat.
Proof.
  intros Hdom. rewrite <- size_dom, <- (size_set_seq (C := gset nat) 0 n).
  apply subseteq_size. intros x Hx.
  apply elem_of_dom in Hx as [y Hy]. apply elem_of_set_seq.
  specialize (Hdom _ _ Hy). lia.
Qed.

Lemma wf_heap_entries h (l : loc) :
  wf_heap h -> (l < length h)%nat ->
  Forall (entry_valid (length h)) (gate_list (h !!! l)).
Proof.
  intros Hwf Hl. destruct (lookup_lt_is_Some_2 h l Hl) as [c Hc].
  rewrite list_lookup_total_alt, Hc. simpl.
  unfold wf_heap in Hwf. rewrite Forall_forall in Hwf.
  apply Hwf. eapply list_elem_of_lookup_2, Hc.
Qed.

Section Entries.
Variables (h0 : list (circuit (Gate := Gate))) (depth : nat).
Variable copy : loc -> state_exn (copy_state (Gate := Gate)) loc.

(** What the entry loop needs of the copier it calls. *)
Hypothesis copy_spec : forall (x : loc) h memo,
  copy_inv h0 (h, memo) ->
  (x < length h0)%nat ->
  (length h0 < depth + size memo)%nat ->
  exists y h' memo',
    copy x (h, memo) = (Ret y, (h', memo'))
    /\ stable (length h) h h'
    /\ copy_inv h0 (h', memo')
    /\ memo ⊆ memo'
    /\ (length h0 <= y)%nat.

Lemma deepcopy_entries_spec (entries : list entry) :
  Forall (entry_valid (length h0)) entries ->
  forall h memo,
    copy_inv h0 (h, memo) ->
    (length h0 < depth + size memo)%nat ->
    exists gl h' memo',
      deepcopy_entries copy entries (h, memo) = (Ret gl, (h', memo'))
      /\ stable (length h) h h'
      /\ copy_inv h0 (h', memo')
      /\ memo ⊆ memo'
      /\ Forall2 (entry_copy (length h0)) entries gl.
Proof.
  induction 1 as [|[g|l] rest Hvalid _ IH]; intros h memo Hinv Hdepth.
  - exists [], h, memo. simpl. unfold st_ret.
    split; [reflexivity |]. split; [apply stable_refl |].
    split; [exact Hinv |]. split; [reflexivity | constructor].
  - destruct (IH h memo Hinv Hdepth) as (gl & h' & memo' & E & Hst & Hinv' & Hsub & Hcopy).
    exists (EGate g :: gl), h', memo'. simpl. unfold st_bind, st_ret. rewrite E.
    split; [reflexivity |]. split; [exact Hst |].
    split; [exact Hinv' |]. split; [exact Hsub |].
    constructor; [reflexivity | exact Hcopy].
  - simpl in Hvalid.
    destruct (copy_spec l h memo Hinv Hvalid Hdepth)
      as (y & h1 & memo1 & E1 & Hst1 & Hinv1 & Hsub1 & Hy).
    assert (length h0 < depth + size memo1)%nat as Hdepth1.
    { pose proof (map_subseteq_size _ _ Hsub1). lia. }
    destruct (IH h1 memo1 Hinv1 Hdepth1)
      as (gl & h' & memo' & E & Hst & Hinv' & Hsub & Hcopy).
    exists (ECirc y :: gl), h', memo'. simpl. unfold st_bind, st_ret.
    rewrite E1, E.
    split; [reflexivity |]. split; [| split; [exact Hinv' | split]].
    + eapply stable_trans; [exact Hst1 |].
      eapply stable_mono; [| exact Hst]. apply Hst1.
    + etrans; eassumption.
    + constructor; [exact Hy | exact Hcopy].
Qed.
End Entries.

(** With more depth than there are objects still to copy, the copier
    returns; it writes only to objects it allocates. *)
Lemma deepcopy_circuit_spec (h0 : list (circuit (Gate := Gate))) (depth : nat) :
  wf_heap h0 ->
  forall (x : loc) h memo,
    copy_inv h0 (h, memo) ->
    (x < length h0)%nat ->
    (length h0 < depth + size memo)%nat ->
    exists y h' memo',
      deepcopy_circuit depth x (h, memo) = (Ret y, (h', memo'))
      /\ stable (length h) h h'
      /\ copy_inv h0 (h', memo')
      /\ memo ⊆ memo'
      /\ (length h0 <= y)%nat
      /\ (memo !! x = None ->
          y = length h
          /\ exists gl,
              h' !! y = Some (set_gate_list gl (h0 !!! x))
              /\ Forall2 (entry_copy (length h0)) (gate_list (h0 !!! x)) gl).
Proof.
  intros Hwf. induction depth as [|depth IH]; intros x h memo Hinv Hx Hdepth.
  - exfalso. destruct Hinv as [_ Hmemo]. simpl in Hmemo.
    pose proof (memo_size_bound (length h0) memo) as Hsize.
    assert (size memo <= length h0)%nat; [| lia].
    apply Hsize. intros x' y' Hxy. apply (Hmemo _ _ Hxy).
  - pose proof Hinv as [Hst0 Hmemo]. simpl in Hst0, Hmemo.
    simpl. destruct (memo !! x) as [y|] eqn:Hlook.
    + exists y, h, memo.
      split; [reflexivity |]. split; [apply stable_refl |].
      split; [exact Hinv |]. split; [reflexivity |].
      split; [apply (Hmemo _ _ Hlook) | discriminate].
    + assert (h !!! x = h0 !!! x) as Hc
        by (eapply lookup_total_stable; eassumption).
      rewrite Hc.
      set (h1 := h ++ [Circuit_init None]).
      set (memo1 := <[x := length h]> memo).
      assert (length h0 <= length h)%nat as Hlen by apply Hst0.
      assert (stable (length h) h h1) as Hst1 by (apply stable_alloc; lia).
      assert (copy_inv h0 (h1, memo1)) as Hinv1.
      { split; simpl.
        - eapply stable_trans; [exact Hst0 |].
          eapply stable_mono; [exact Hlen | exact Hst1].
        - intros x' y'. unfold memo1. rewrite lookup_insert.
          case_decide; [intros [= <-]; subst; lia | apply Hmemo]. }
      assert (length h0 < depth + size memo1)%nat as Hdepth1.
      { unfold memo1. rewrite map_size_insert_None by exact Hlook. lia. }
      destruct (deepcopy_entries_spec h0 depth (deepcopy_circuit depth))
        with (entries := gate_list (h0 !!! x)) (h := h1) (memo := memo1)
        as (gl & h2 & memo2 & E & Hst2 & Hinv2 & Hsub2 & Hcopy).
      { intros x' h' memo' Hinv' Hx' Hdepth'.
        destruct (IH x' h' memo' Hinv' Hx' Hdepth')
          as (y & h'' & memo'' & ? & ? & ? & ? & ? & _).
        exists y, h'', memo''. auto. }
      { apply wf_heap_entries; assumption. }
      { exact Hinv1. }
      { exact Hdepth1. }
      rewrite E.
      assert (length h1 = S (length h)) as Hlen1
        by (unfold h1; rewrite length_app; simpl; lia).
      assert (length h < length h2)%nat as Hlen2
        by (destruct Hst2 as [? _]; lia).
      exists (length h), (<[length h := set_gate_list gl (h0 !!! x)]> h2), memo2.
      split; [reflexivity |]. split; [| split; [| split; [| split; [| split]]]].
      * eapply stable_trans; [exact Hst1 |].
        eapply stable_trans; [eapply stable_mono; [| exact Hst2]; lia |].
        apply stable_insert. lia.
      * destruct Hinv2 as [Hst02 Hmemo2]. split; simpl; [| exact Hmemo2].
        eapply stable_trans; [exact Hst02 |]. apply stable_insert. exact Hlen.
      * etrans; [| exact Hsub2]. apply insert_subseteq. exact Hlook.
      * exact Hlen.
      * reflexivity.
      * exists gl. split; [| exact Hcopy].
        apply list_lookup_insert_eq. exact Hlen2.
Qed.

(** [deepcopy] of an object of a well-formed store returns, given a
    recursion limit above the number of objects: the copy is a new
    object with the attributes of the original, its [gate_list] copied
    entry by entry, and no existing object is touched. *)
Lemma deepcopy_spec (depth : nat) h (x : loc) :
  wf_heap h ->
  (x < length h)%nat ->
  (length h < depth)%nat ->
  exists h' gl,
    deepcopy depth x h = (Ret (length h), h')
    /\ stable (length h) h h'
    /\ h' !! length h = Some (set_gate_list gl (h !!! x))
    /\ Forall2 (entry_copy (length h)) (gate_list (h !!! x)) gl.
Proof.
  intros Hwf Hx Hdepth.
  destruct (deepcopy_circuit_spec h depth Hwf x h ∅)
    as (y & h' & memo' & E & Hst & _ & _ & _ & Hnew).
  - split; simpl; [apply stable_refl |].
    intros x' y'. rewrite lookup_empty. discriminate.
  - exact Hx.
  - rewrite map_size_empty. lia.
  - destruct (Hnew (lookup_empty x)) as (-> & gl & Hlook & Hcopy).
    exists h', gl. unfold deepcopy. rewrite E. auto.
Qed.

End DeepcopyProperties.

Section AppendProperties.
Context {Gate Angle : Type} `{!GateContract Gate Angle}.
Implicit Types (h : list (circuit (Gate := Gate))) (c : circuit (Gate := Gate)).
Local Open Scope py_scope.

Lemma merge_qubits_present (involved qubits : list Z) :
  Forall (fun q => list_contains q involved = true) qubits ->
  merge_qubits involved qubits = involved.
Proof.
  induction 1 as [|q qs Hq _ IH]; simpl; [reflexivity |].
  rewrite Hq. simpl. exact IH.
Qed.

Lemma list_contains_self (qubits : list Z) :
  Forall (fun q => list_contains q qubits = true) qubits.
Proof.
  induction qubits as [|q qs IH]; constructor; simpl.
  - rewrite Z.eqb_refl. reflexivity.
  - eapply Forall_impl; [exact IH |]. simpl. intros q' ->.
    destruct (q' =? q); reflexivity.
Qed.

Lemma merge_qubits_self (qubits : list Z) : merge_qubits qubits qubits = qubits.
Proof. apply merge_qubits_present, list_contains_self. Qed.

(** Appending another circuit object. *)
Lemma append_other_circuit (depth : nat) h (A B : loc) (kwargs : kwargs_t) :
  A <> B ->
  class_of (h !!! B) = Circuit ->
  append depth A (OCircuit B) kwargs h
  = (Ret tt,
     alter (fun c => set_gate_list
              (gate_list c ++
               (if truthy (expand_argument kwargs) || expand (h !!! B)
                then gate_list (h !!! B) else [ECirc B])) c) A
       (alter (fun c => set_involved_qubits
                 (merge_qubits (involved_qubits c) (involved_qubits (h !!! B))) c)
          A h)).
Proof.
  intros Hne Hclass. unfold append, _append_circuit. run_py.
  rewrite Hclass. simpl.
  destruct (Nat.eqb_spec B A) as [-> | _]; [congruence |].
  rewrite list_lookup_total_alter_ne by exact Hne.
  destruct (truthy (expand_argument kwargs) || expand (h !!! B)); reflexivity.
Qed.

(** Appending a circuit to itself. *)
Lemma append_self_circuit (depth : nat) h (A : loc) (kwargs : kwargs_t) :
  wf_heap h ->
  (A < length h)%nat ->
  class_of (h !!! A) = Circuit ->
  (length h < depth)%nat ->
  exists h1 gl,
    stable (length h) h h1
    /\ h1 !! length h = Some (set_gate_list gl (h !!! A))
    /\ Forall2 (entry_copy (length h)) (gate_list (h !!! A)) gl
    /\ append depth A (OCircuit A) kwargs h
       = (Ret tt,
          alter (fun c => set_gate_list
                   (gate_list c ++
                    (if truthy (expand_argument kwargs) || expand (h !!! A)
                     then gl else [ECirc (length h)])) c) A
            (alter (fun c => set_involved_qubits
                      (merge_qubits (involved_qubits c) (involved_qubits (h !!! A))) c)
               A h1)).
Proof.
  intros Hwf HA Hclass Hdepth.
  destruct (deepcopy_spec depth h A Hwf HA Hdepth) as (h1 & gl & E & Hst & Hnew & Hcopy).
  exists h1, gl. split; [exact Hst |]. split; [exact Hnew |]. split; [exact Hcopy |].
  unfold append, _append_circuit. run_py.
  rewrite Hclass. simpl. rewrite Nat.eqb_refl, E.
  assert (h1 !!! length h = set_gate_list gl (h !!! A)) as Hcopy_obj
    by (rewrite list_lookup_total_alt, Hnew; reflexivity).
  rewrite list_lookup_total_alter_ne by lia.
  rewrite Hcopy_obj. simpl.
  destruct (truthy (expand_argument kwargs) || expand (h !!! A)); reflexivity.
Qed.

Lemma lookup_total_alter_twice h (A : loc) (f1 f2 : circuit -> circuit) :
  (A < length h)%nat -> alter f2 A (alter f1 A h) !!! A = f2 (f1 (h !!! A)).
Proof.
  intros HA. rewrite list_lookup_total_alter_eq by (rewrite length_alter; exact HA).
  rewrite list_lookup_total_alter_eq by exact HA. reflexivity.
Qed.

(** C2, as the code has it: appending a plain circuit [B] to [A] adds
    to [A.gate_list] the entries of [B] one by one when the [expand]
    argument or [B.expand] is true, and otherwise [B] as one nested
    entry; when [B] is [A] itself, it is the deep copy of [A] taken
    first, a new object, whose entries are added or which is nested. *)
Theorem append_flattens_or_nests (depth : nat) h (A B : loc) (kwargs : kwargs_t) :
  wf_heap h ->
  (A < length h)%nat ->
  (B < length h)%nat ->
  class_of (h !!! B) = Circuit ->
  (A = B -> (length h < depth)%nat) ->
  exists h',
    append depth A (OCircuit B) kwargs h = (Ret tt, h')
    /\ (A <> B ->
        gate_list (h' !!! A)
        = gate_list (h !!! A) ++
          (if truthy (expand_argument kwargs) || expand (h !!! B)
           then gate_list (h !!! B) else [ECirc B]))
    /\ (A = B ->
        exists gl,
          h' !! length h = Some (set_gate_list gl (h !!! B))
          /\ Forall2 (entry_copy (length h)) (gate_list (h !!! B)) gl
          /\ gate_list (h' !!! A)
             = gate_list (h !!! A) ++
               (if truthy (expand_argument kwargs) || expand (h !!! B)
                then gl else [ECirc (length h)])).
Proof.
  intros Hwf HA HB Hclass Hdepth.
  destruct (decide (A = B)) as [<- | Hne].
  - destruct (append_self_circuit depth h A kwargs Hwf HA Hclass (Hdepth eq_refl))
      as (h1 & gl & Hst & Hnew & Hcopy & E).
    eexists. split; [exact E |]. split; [congruence |]. intros _.
    assert (A < length h1)%nat as HA1 by (destruct Hst as [? _]; lia).
    exists gl. split; [| split; [exact Hcopy |]].
    + rewrite !list_lookup_alter_ne by lia. exact Hnew.
    + rewrite lookup_total_alter_twice by exact HA1.
      rewrite (lookup_total_stable _ _ _ _ Hst HA). reflexivity.
  - rewrite (append_other_circuit depth h A B kwargs Hne Hclass).
    eexists. split; [reflexivity |]. split; [| congruence]. intros _.
    rewrite lookup_total_alter_twice by exact HA. reflexivity.
Qed.


(** C10: a new plain circuit has [expand = True] (a new fragment has
    [False]); so appending a plain circuit [B] whose flag is still true
    adds the entries of [B] (of its deep copy when [B] is [A] itself)
    one by one, whatever the [expand] argument, also when it is left
    out: [A.gate_list] grows by as many entries as [B] has, gate for
    gate. *)
Theorem default_expand_flattens (depth : nat) h (A B : loc) (kwargs : kwargs_t)
    (name : option string) :
  wf_heap h ->
  (A < length h)%nat ->
  (B < length h)%nat ->
  class_of (h !!! B) = Circuit ->
  expand (h !!! B) = true ->
  (A = B -> (length h < depth)%nat) ->
  expand (Circuit_init (Gate := Gate) name) = true
  /\ expand (Fragment_init (Gate := Gate) name) = false
  /\ exists h',
      append depth A (OCircuit B) kwargs h = (Ret tt, h')
      /\ (A <> B ->
          gate_list (h' !!! A) = gate_list (h !!! A) ++ gate_list (h !!! B))
      /\ (A = B ->
          exists gl,
            Forall2 (entry_copy (length h)) (gate_list (h !!! B)) gl
            /\ gate_list (h' !!! A) = gate_list (h !!! A) ++ gl)
      /\ length (gate_list (h' !!! A))
         = (length (gate_list (h !!! A)) + length (gate_list (h !!! B)))%nat.
Proof.
  intros Hwf HA HB Hclass Hexpand Hdepth.
  split; [reflexivity |]. split; [reflexivity |].
  destruct (decide (A = B)) as [<- | Hne].
  - destruct (append_self_circuit depth h A kwargs Hwf HA Hclass (Hdepth eq_refl))
      as (h1 & gl & Hst & _ & Hcopy & E).
    rewrite Hexpand, orb_true_r in E.
    assert (A < length h1)%nat as HA1 by (destruct Hst as [? _]; lia).
    assert (gate_list
              (alter (fun c => set_gate_list (gate_list c ++ gl) c) A
                 (alter (fun c => set_involved_qubits
                           (merge_qubits (involved_qubits c)
                              (involved_qubits (h !!! A))) c) A h1) !!! A)
            = gate_list (h !!! A) ++ gl) as Hlist.
    { rewrite lookup_total_alter_twice by exact HA1.
      rewrite (lookup_total_stable _ _ _ _ Hst HA). reflexivity. }
    eexists. split; [exact E |]. split; [congruence |]. split.
    + intros _. exists gl. split; [exact Hcopy | exact Hlist].
    + rewrite Hlist, length_app, (Forall2_length _ _ _ Hcopy). reflexivity.
  - rewrite (append_other_circuit depth h A B kwargs Hne Hclass).
    rewrite Hexpand, orb_true_r.
    eexists. split; [reflexivity |].
    rewrite lookup_total_alter_twice by exact HA. simpl.
    split; [reflexivity |]. split; [congruence |].
    rewrite length_app. reflexivity.
Qed.

End AppendProperties.

Section StoreInvariant.
Context {Gate Angle : Type} `{!GateContract Gate Angle}.
Implicit Types (h : list (circuit (Gate := Gate))) (c : circuit (Gate := Gate)).
Implicit Types (memo : gmap nat nat).
Local Open Scope py_scope.

(** *** Well-formedness is an invariant of the methods *)

Lemma entry_valid_mono (n m : nat) (e : entry (Gate := Gate)) :
  (n <= m)%nat -> entry_valid n e -> entry_valid m e.
Proof. destruct e; simpl; [auto | lia]. Qed.

Lemma entries_valid_mono (n m : nat) (es : list (entry (Gate := Gate))) :
  (n <= m)%nat -> Forall (entry_valid n) es -> Forall (entry_valid m) es.
Proof.
  intros Hnm Hes. eapply Forall_impl; [exact Hes |].
  intros e. apply entry_valid_mono, Hnm.
Qed.

Lemma wf_heap_alloc h c :
  wf_heap h -> Forall (entry_valid (S (length h))) (gate_list c) -> wf_heap (h ++ [c]).
Proof.
  unfold wf_heap. intros Hwf Hc. rewrite length_app. simpl.
  replace (length h + 1)%nat with (S (length h)) by lia.
  apply Forall_app. split; [| constructor; [exact Hc | constructor]].
  eapply Forall_impl; [exact Hwf |]. intros c'. apply entries_valid_mono. lia.
Qed.

Lemma wf_heap_alter h (l : loc) (f : circuit -> circuit) :
  wf_heap h ->
  (forall c, Forall (entry_valid (length h)) (gate_list c) ->
             Forall (entry_valid (length h)) (gate_list (f c))) ->
  wf_heap (alter f l h).
Proof.
  unfold wf_heap. intros Hwf Hf. rewrite length_alter.
  apply Forall_alter; [exact Hwf |]. intros c _. apply Hf.
Qed.

Lemma wf_heap_insert h (l : loc) c :
  wf_heap h -> Forall (entry_valid (length h)) (gate_list c) -> wf_heap (<[l := c]> h).
Proof.
  unfold wf_heap. intros Hwf Hc. rewrite length_insert.
  destruct (decide (l < length h)%nat) as [Hl | Hl].
  - apply Forall_insert; assumption.
  - rewrite list_insert_ge by lia. exact Hwf.
Qed.

Lemma append_gate_wf (self : loc) (gate_object : entry) h r h' :
  wf_heap h -> _append_gate self gate_object h = (r, h') -> wf_heap h'.
Proof.
  intros Hwf. unfold _append_gate, call_involved_qubits.
  destruct gate_object as [g|l]; run_py; intros [= <- <-]; [| exact Hwf].
  apply wf_heap_alter; [apply wf_heap_alter; [exact Hwf |] |].
  - intros c Hc. simpl. apply Forall_app. split; [exact Hc |].
    constructor; [exact I | constructor].
  - intros c Hc. exact Hc.
Qed.

Lemma assign_gates_wf (gate_assign : entry -> M entry) (ret : loc)
    (gates : list entry) :
  (forall gate h r h', wf_heap h -> gate_assign gate h = (r, h') -> wf_heap h') ->
  forall h r h',
    wf_heap h -> assign_gates gate_assign ret gates h = (r, h') -> wf_heap h'.
Proof.
  intros Hassign. induction gates as [|gate rest IH]; intros h r h' Hwf; simpl.
  - run_py. intros [= <- <-]. exact Hwf.
  - unfold st_bind.
    destruct (gate_assign gate h) as [[assigned|e] h1] eqn:E1.
    + pose proof (Hassign _ _ _ _ Hwf E1) as Hwf1.
      destruct (_append_gate ret assigned h1) as [[[]|e] h2] eqn:E2.
      * apply IH. eapply append_gate_wf; eassumption.
      * intros [= <- <-]. eapply append_gate_wf; eassumption.
    + intros [= <- <-]. eapply Hassign; eassumption.
Qed.

Lemma assign_by_map_wf (depth : nat) :
  forall (self : loc) (qubit_map : qmap) h r h',
    wf_heap h -> assign_by_map depth self qubit_map h = (r, h') -> wf_heap h'.
Proof.
  induction depth as [|depth IH]; intros self qubit_map h r h' Hwf.
  - simpl. run_py. intros [= <- <-]. exact Hwf.
  - assert (wf_heap (h ++ [Circuit_init (name (h !!! self))])) as Hwf1
      by (apply wf_heap_alloc; [exact Hwf | constructor]).
    simpl. unfold _check_qubit_map. run_py.
    destruct (negb _).
    + intros [= <- <-]. exact Hwf1.
    + match goal with
      | |- context [assign_gates ?ga ?ret ?gl ?s] =>
          destruct (assign_gates ga ret gl s) as [rr h2] eqn:E
      end.
      apply assign_gates_wf in E.
      * intros Hr. assert (h2 = h') as <- by (destruct rr; congruence). exact E.
      * intros [g|l] s r0 s' Hs.
        -- intros [= <- <-]. exact Hs.
        -- destruct (assign_by_map depth l qubit_map s) as [r1 s1] eqn:E1.
           apply IH in E1; [| exact Hs]. intros Hr.
           assert (s1 = s') as <- by (destruct r1; congruence). exact E1.
      * apply wf_heap_alter; [exact Hwf1 |]. intros c Hc. exact Hc.
Qed.

Lemma assign_wf (depth : nat) (self : loc) (args : list value) (kwargs : kwargs_t)
    h r h' :
  wf_heap h -> assign depth self args kwargs h = (r, h') -> wf_heap h'.
Proof.
  intros Hwf. unfold assign, Fragment_assign, Circuit_assign.
  unfold st_bind at 1. unfold read at 1.
  assert (forall r h', Circuit_assign depth self args kwargs h = (r, h') -> wf_heap h')
    as Hcircuit.
  { intros r0 h0. unfold Circuit_assign, st_bind, lift_result, st_ret.
    assert (forall parsed : result qmap,
              match parsed with
              | Ret qubit_map =>
                  let (r, h1) := assign_by_map depth self qubit_map h in
                  match r with
                  | Ret ret => (Ret ret, h1)
                  | Raise e => (Raise e, h1)
                  end
              | Raise e => (Raise e, h)
              end = (r0, h0) -> wf_heap h0) as Hparsed.
    { intros [qubit_map|e].
      - destruct (assign_by_map depth self qubit_map h) as [r1 h1] eqn:E.
        apply assign_by_map_wf in E; [| exact Hwf]. intros Hr.
        assert (h1 = h0) as <- by (destruct r1; congruence). exact E.
      - intros [= <- <-]. exact Hwf. }
    destruct (0 <? length args)%nat; apply Hparsed. }
  destruct (class_of (h !!! self)); [apply Hcircuit |].
  fold (Circuit_assign depth self args kwargs). unfold st_bind.
  destruct (Circuit_assign depth self args kwargs h) as [[ret|e] h1];
    pose proof (Hcircuit _ _ eq_refl) as E.
  - unfold update, st_ret. intros [= <- <-].
    apply wf_heap_alter; [exact E |]. intros c Hc. exact Hc.
  - intros [= <- <-]. exact E.
Qed.

(** While copying: the store is well formed and the memo points into it. *)
Lemma deepcopy_entries_wf (copy : loc -> state_exn (copy_state (Gate := Gate)) loc) :
  (forall x h memo r h' memo',
     wf_heap h -> (forall x y, memo !! x = Some y -> (y < length h)%nat) ->
     copy x (h, memo) = (r, (h', memo')) ->
     wf_heap h' /\ (forall x y, memo' !! x = Some y -> (y < length h')%nat)
     /\ (length h <= length h')%nat
     /\ (forall y, r = Ret y -> (y < length h')%nat)) ->
  forall (entries : list entry) h memo r h' memo',
    wf_heap h -> (forall x y, memo !! x = Some y -> (y < length h)%nat) ->
    Forall (entry_valid (length h)) entries ->
    deepcopy_entries copy entries (h, memo) = (r, (h', memo')) ->
    wf_heap h' /\ (forall x y, memo' !! x = Some y -> (y < length h')%nat)
    /\ (length h <= length h')%nat
    /\ (forall gl, r = Ret gl -> Forall (entry_valid (length h')) gl).
Proof.
  intros Hcopy. induction entries as [|[g|l] rest IH];
    intros h memo r h' memo' Hwf Hmemo Hvalid; simpl.
  - unfold st_ret. intros [= <- <- <-].
    split; [exact Hwf |]. split; [exact Hmemo |]. split; [lia |].
    intros gl [= <-]. constructor.
  - unfold st_bind, st_ret.
    destruct (deepcopy_entries copy rest (h, memo)) as [r1 [h1 memo1]] eqn:E.
    apply IH in E as (Hwf1 & Hmemo1 & Hlen1 & Hgl); [| assumption ..
                                                     | inversion Hvalid; assumption].
    destruct r1 as [gl1|e]; intros [= <- <- <-].
    + split; [exact Hwf1 |]. split; [exact Hmemo1 |]. split; [exact Hlen1 |].
      intros gl [= <-]. constructor; [exact I | apply Hgl; reflexivity].
    + split; [exact Hwf1 |]. split; [exact Hmemo1 |]. split; [exact Hlen1 |]. discriminate.
  - unfold st_bind, st_ret.
    destruct (copy l (h, memo)) as [r1 [h1 memo1]] eqn:E1.
    apply Hcopy in E1 as (Hwf1 & Hmemo1 & Hlen1 & Hy); [| assumption ..].
    destruct r1 as [y|e].
    + destruct (deepcopy_entries copy rest (h1, memo1)) as [r2 [h2 memo2]] eqn:E2.
      apply IH in E2 as (Hwf2 & Hmemo2 & Hlen2 & Hgl); [| assumption ..|].
      * destruct r2 as [gl2|e]; intros [= <- <- <-].
        -- split; [exact Hwf2 |]. split; [exact Hmemo2 |]. split; [lia |].
           intros gl [= <-]. constructor; [| apply Hgl; reflexivity].
           simpl. specialize (Hy y eq_refl). lia.
        -- split; [exact Hwf2 |]. split; [exact Hmemo2 |]. split; [lia |]. discriminate.
      * inversion Hvalid; subst. eapply entries_valid_mono; eassumption.
    + intros [= <- <- <-].
      split; [exact Hwf1 |]. split; [exact Hmemo1 |]. split; [exact Hlen1 |]. discriminate.
Qed.

Lemma deepcopy_circuit_wf (depth : nat) :
  forall (x : loc) h memo r h' memo',
    wf_heap h -> (forall x y, memo !! x = Some y -> (y < length h)%nat) ->
    deepcopy_circuit depth x (h, memo) = (r, (h', memo')) ->
    wf_heap h' /\ (forall x y, memo' !! x = Some y -> (y < length h')%nat)
    /\ (length h <= length h')%nat
    /\ (forall y, r = Ret y -> (y < length h')%nat).
Proof.
  induction depth as [|depth IH]; intros x h memo r h' memo' Hwf Hmemo; simpl.
  - unfold raise. intros [= <- <- <-].
    split; [exact Hwf |]. split; [exact Hmemo |]. split; [lia | discriminate].
  - destruct (memo !! x) as [y|] eqn:Hlook.
    + intros [= <- <- <-].
      split; [exact Hwf |]. split; [exact Hmemo |]. split; [lia |].
      intros y' [= <-]. eapply Hmemo, Hlook.
    + set (h1 := h ++ [Circuit_init None]).
      set (memo1 := <[x := length h]> memo).
      assert (length h1 = S (length h)) as Hlen1
        by (unfold h1; rewrite length_app; simpl; lia).
      assert (wf_heap h1) as Hwf1 by (apply wf_heap_alloc; [exact Hwf | constructor]).
      assert (forall x' y', memo1 !! x' = Some y' -> (y' < length h1)%nat) as Hmemo1.
      { intros x' y'. unfold memo1. rewrite lookup_insert.
        case_decide; [intros [= <-]; lia |]. intros Hxy. apply Hmemo in Hxy. lia. }
      assert (Forall (entry_valid (length h1)) (gate_list (h !!! x))) as Hvalid.
      { destruct (decide (x < length h)%nat) as [Hx | Hx].
        - eapply entries_valid_mono; [| apply wf_heap_entries; eassumption]. lia.
        - rewrite list_lookup_total_alt, lookup_ge_None_2 by lia. constructor. }
      destruct (deepcopy_entries (deepcopy_circuit depth) (gate_list (h !!! x))
                  (h1, memo1)) as [r2 [h2 memo2]] eqn:E.
      apply (deepcopy_entries_wf _ IH) in E as (Hwf2 & Hmemo2 & Hlen2 & Hgl);
        [| assumption ..].
      destruct r2 as [gl|e]; intros [= <- <- <-].
      * split; [| split; [| split]].
        -- apply wf_heap_insert; [exact Hwf2 |]. simpl. apply Hgl. reflexivity.
        -- intros x' y' Hxy. rewrite length_insert. eapply Hmemo2, Hxy.
        -- rewrite length_insert. lia.
        -- intros y [= <-]. rewrite length_insert. lia.
      * split; [exact Hwf2 |]. split; [exact Hmemo2 |]. split; [lia | discriminate].
Qed.

Lemma deepcopy_wf (depth : nat) (x : loc) h r h' :
  wf_heap h -> deepcopy depth x h = (r, h') ->
  wf_heap h' /\ (length h <= length h')%nat
  /\ (forall y, r = Ret y -> (y < length h')%nat).
Proof.
  intros Hwf. unfold deepcopy.
  destruct (deepcopy_circuit depth x (h, ∅)) as [r1 [h1 memo1]] eqn:E.
  apply deepcopy_circuit_wf in E as (Hwf1 & _ & Hlen & Hy).
  - intros [= <- <-]. auto.
  - exact Hwf.
  - intros x' y'. rewrite lookup_empty. discriminate.
Qed.

Lemma append_wf (depth : nat) (self : loc) (object : pyobject) (kwargs : kwargs_t)
    h r h' :
  wf_heap h ->
  match object with OCircuit l => (l < length h)%nat | _ => True end ->
  append depth self object kwargs h = (r, h') -> wf_heap h'.
Proof.
  intros Hwf Hobj. destruct object as [B|g|v]; simpl.
  - assert (forall (nc : loc) h1 r h',
              wf_heap h1 -> (nc < length h1)%nat ->
              (let h2 := alter (fun c => set_involved_qubits
                                  (merge_qubits (involved_qubits c)
                                     (involved_qubits (h1 !!! nc))) c) self h1 in
               if truthy (expand_argument kwargs) || expand (h2 !!! nc)
               then (Ret tt,
                     alter (fun c => set_gate_list
                              (gate_list c ++ gate_list (h2 !!! nc)) c) self h2)
               else (Ret tt,
                     alter (fun c => set_gate_list (gate_list c ++ [ECirc nc]) c)
                       self h2))
              = (r, h') -> wf_heap h') as Hrest.
    { intros nc h1 r0 h0 Hwf1 Hnc. cbv zeta.
      set (h2 := alter _ self h1).
      assert (wf_heap h2) as Hwf2
        by (apply wf_heap_alter; [exact Hwf1 | intros c Hc; exact Hc]).
      assert (length h2 = length h1) as Hlen2 by apply length_alter.
      destruct (truthy (expand_argument kwargs) || expand (h2 !!! nc));
        intros [= <- <-]; (apply wf_heap_alter; [exact Hwf2 |]); intros c Hc; simpl;
        apply Forall_app; (split; [exact Hc |]).
      - apply wf_heap_entries; [exact Hwf2 | lia].
      - constructor; [simpl; lia | constructor]. }
    unfold _append_circuit. run_py.
    destruct (is_Fragment _); [intros [= <- <-]; exact Hwf |].
    destruct (Nat.eqb B self).
    + destruct (deepcopy depth B h) as [[nc|e] h1] eqn:E;
        apply deepcopy_wf in E as (Hwf1 & _ & Hy); try exact Hwf.
      * intros Hr. eapply (Hrest nc h1); [exact Hwf1 | apply Hy; reflexivity |].
        cbv zeta. destruct (truthy (expand_argument kwargs) || _); exact Hr.
      * intros [= <- <-]. exact Hwf1.
    + intros Hr. eapply (Hrest B h); [exact Hwf | exact Hobj |].
      cbv zeta. destruct (truthy (expand_argument kwargs) || _); exact Hr.
  - apply append_gate_wf, Hwf.
  - unfold raise. intros [= <- <-]. exact Hwf.
Qed.

Lemma builders_wf (self : loc) (qubit : Z) (angle : Angle) h :
  wf_heap h ->
  wf_heap (snd (rx self qubit angle h))
  /\ wf_heap (snd (ry self qubit angle h))
  /\ wf_heap (snd (rz self qubit angle h)).
Proof.
  intros Hwf.
  assert (forall g, wf_heap (snd (_append_gate self (EGate g) h))) as Hgate.
  { intros g. destruct (_append_gate self (EGate g) h) as [r h'] eqn:E.
    eapply append_gate_wf; eassumption. }
  split; [apply (Hgate (Rx qubit angle)) |].
  split; [apply (Hgate (Ry qubit angle)) | apply (Hgate (Rz qubit angle))].
Qed.

Lemma constructors_wf (name : option string) h :
  wf_heap h ->
  wf_heap (h ++ [Circuit_init name]) /\ wf_heap (h ++ [Fragment_init name]).
Proof. intros Hwf. split; apply wf_heap_alloc; try exact Hwf; constructor. Qed.

End StoreInvariant.

(** * The properties at concrete inputs *)

Lemma three_qubit_store_wf : wf_heap Scenarios.three_qubit_store.
Proof. repeat constructor. Qed.

Lemma assigned_fragment_store_wf : wf_heap Scenarios.assigned_fragment_store.
Proof. repeat constructor. Qed.

(** [c.assign(q0=5, q1=6, q2=7)] on the three-qubit circuit. *)
Lemma assign_returns_new_circuit_witness :
  assign 1 0%nat [] [("q0", VInt 5); ("q1", VInt 6); ("q2", VInt 7)]%string
    Scenarios.three_qubit_store
  = (Ret 1%nat,
     Scenarios.three_qubit_store
     ++ [bound_circuit (Scenarios.three_qubit_store !!! 0%nat)
           [(0, VInt 5); (1, VInt 6); (2, VInt 7)]]).
Proof.
  apply (assign_returns_new_circuit 0 Scenarios.three_qubit_store 0%nat
           [(0, VInt 5); (1, VInt 6); (2, VInt 7)] []
           [("q0", VInt 5); ("q1", VInt 6); ("q2", VInt 7)]%string).
  - simpl. lia.
  - reflexivity.
  - reflexivity.
  - reflexivity.
Defined.

(** C1 as stated fails: the map [{0: 5, 1: 6, 2: 7}] covers the three
    involved qubits, but [c.assign(m)] takes a positional argument that is
    not a list as the first of a sequence of targets: the map parsed is
    [{0: m}], qubit 1 is not a key of it, and the call raises. *)
Lemma assign_positional_dict_raises :
  check_qubit_map_loop (involved_qubits (Scenarios.three_qubit_store !!! 0%nat))
    [(0, VInt 5); (1, VInt 6); (2, VInt 7)] = true
  /\ assign 1 0%nat [VDict [(0, VInt 5); (1, VInt 6); (2, VInt 7)]] []
       Scenarios.three_qubit_store
     = (Raise (RuntimeError
                 (not_cover_message []
                    [(0, VDict [(0, VInt 5); (1, VInt 6); (2, VInt 7)])])),
        Scenarios.three_qubit_store ++ [Circuit_init None]).
Proof. split; reflexivity. Qed.

(** A circuit with a nested entry: [A], holding the assigned fragment [R],
    involves no qubit, so the empty map covers it; yet
    [A.assign_by_map({})] raises under every recursion limit, the bound
    copy of [R] being handed to [_append_gate]. *)
Lemma assign_nested_circuit_raises :
  check_qubit_map_loop (involved_qubits (Scenarios.nested_store !!! 2%nat)) [] = true
  /\ forall depth, exists e h',
       assign_by_map depth 2%nat [] Scenarios.nested_store = (Raise e, h').
Proof.
  split; [reflexivity |].
  intros [|[|depth]]; eexists; eexists; reflexivity.
Qed.

(** [R.append(R)] for the assigned fragment [R]: the copy is nested. *)
Lemma append_flattens_or_nests_witness :
  exists h',
    append 3 1%nat (OCircuit 1%nat) [] Scenarios.assigned_fragment_store = (Ret tt, h')
    /\ gate_list (h' !!! 1%nat) = [ECirc 2%nat].
Proof.
  destruct (append_flattens_or_nests 3 Scenarios.assigned_fragment_store 1%nat 1%nat [])
    as (h' & E & _ & Hself).
  - exact assigned_fragment_store_wf.
  - simpl. lia.
  - simpl. lia.
  - reflexivity.
  - intros _. simpl. lia.
  - exists h'. split; [exact E |].
    destruct (Hself eq_refl) as (gl & _ & _ & Hlist). exact Hlist.
Defined.

(** C2 as stated fails: neither the [expand] argument nor [R.expand] is
    true, yet after [R.append(R)] the new entry of [R.gate_list] is not
    [R] itself, at location 1, but its copy at location 2. *)
Lemma self_append_nests_the_copy :
  truthy (expand_argument [])
  || expand (Scenarios.assigned_fragment_store !!! 1%nat) = false
  /\ exists h',
       append 3 1%nat (OCircuit 1%nat) [] Scenarios.assigned_fragment_store = (Ret tt, h')
       /\ gate_list (h' !!! 1%nat) = [ECirc 2%nat]
       /\ gate_list (h' !!! 1%nat)
          <> gate_list (Scenarios.assigned_fragment_store !!! 1%nat) ++ [ECirc 1%nat].
Proof.
  split; [reflexivity |]. eexists. split; [reflexivity |].
  split; [reflexivity | discriminate].
Qed.

(** [c.assign_by_map({0: 5, 1: 6})] on the three-qubit circuit. *)
Lemma assign_by_map_incomplete_witness :
  assign_by_map 1 0%nat [(0, VInt 5); (1, VInt 6)] Scenarios.three_qubit_store
  = (Raise (RuntimeError (not_cover_message [] [(0, VInt 5); (1, VInt 6)])),
     Scenarios.three_qubit_store ++ [Circuit_init None]).
Proof.
  apply (assign_by_map_incomplete 0 Scenarios.three_qubit_store 0%nat
           [(0, VInt 5); (1, VInt 6)]).
  - simpl. lia.
  - reflexivity.
Defined.

(** The text of that message: the involved qubits 0, 1, 2 are not in it. *)
Lemma incomplete_map_message :
  involved_qubits (Scenarios.three_qubit_store !!! 0%nat) = [0; 1; 2]
  /\ not_cover_message [] [(0, VInt 5); (1, VInt 6)]
     = ("Qubit map does not cover all involved qubits. "
        +:+ "Every involved qubits must be a key in qubit_map." +:+ newline
        +:+ "Expect: [], Get: {0: 5, 1: 6}")%string.
Proof. split; reflexivity. Qed.


(** Appending the fragment at location 0 to the circuit at location 1. *)
Lemma append_fragment_raises_witness :
  append 1 1%nat (OCircuit 0%nat) [("expand", VBool true)]%string
    Scenarios.assigned_fragment_store
  = (Raise (RuntimeError "Append a fragment circuit without assigning qubits."),
     Scenarios.assigned_fragment_store).
Proof.
  apply (append_fragment_raises 1 Scenarios.assigned_fragment_store 1%nat 0%nat).
  reflexivity.
Defined.

(** [c.rz(0, 'a')] on a new circuit returns [None]. *)
Lemma rz_returns_none :
  fst (rz 0%nat 0 "a"%string RotationGates.fresh_store) = Ret None
  /\ fst (rx 0%nat 0 "a"%string RotationGates.fresh_store) = Ret (Some 0%nat).
Proof. split; reflexivity. Qed.

(** [c.assign(n_qubit=3)] on the three-qubit circuit. *)
Lemma assign_without_arguments_witness :
  assign 1 0%nat [] [("n_qubit", VInt 3)]%string Scenarios.three_qubit_store
  = (Raise (RuntimeError (not_cover_message [] [])),
     Scenarios.three_qubit_store ++ [Circuit_init None]).
Proof.
  apply (assign_without_arguments 0 Scenarios.three_qubit_store 0%nat
           [("n_qubit", VInt 3)]%string).
  - simpl. lia.
  - discriminate.
  - repeat constructor.
Defined.

(** C9 as stated fails: [Circuit().assign()] returns a new circuit. *)
Lemma assign_without_arguments_returns :
  assign 1 0%nat [] [] RotationGates.fresh_store
  = (Ret 1%nat, RotationGates.fresh_store ++ [set_mapping (Some []) (Circuit_init None)]).
Proof. reflexivity. Qed.

(** [c.append(c)] on the three-qubit circuit, [expand] left out. *)
Lemma default_expand_flattens_witness :
  exists h',
    append 2 0%nat (OCircuit 0%nat) [] Scenarios.three_qubit_store = (Ret tt, h')
    /\ length (gate_list (h' !!! 0%nat)) = 6%nat.
Proof.
  destruct (default_expand_flattens 2 Scenarios.three_qubit_store 0%nat 0%nat [] None)
    as (_ & _ & h' & E & _ & _ & Hlen).
  - exact three_qubit_store_wf.
  - simpl. lia.
  - simpl. lia.
  - reflexivity.
  - reflexivity.
  - intros _. simpl. lia.
  - exists h'. split; [exact E | exact Hlen].
Defined.

(** * Further properties *)

(** ** Printing an integer and parsing it back *)

Lemma pretty_N_char_digit (d : N) :
  (d < 10)%N ->
  is_digit (pretty_N_char d) = true /\ code (pretty_N_char d) - 48 = Z.of_N d.
Proof.
  intros Hd.
  assert (d = 0 \/ d = 1 \/ d = 2 \/ d = 3 \/ d = 4 \/ d = 5 \/ d = 6 \/ d = 7
          \/ d = 8 \/ d = 9)%N as Hcases by lia.
  repeat (destruct Hcases as [-> | Hcases]; [split; reflexivity |]).
  subst d. split; reflexivity.
Qed.

Lemma pretty_N_go_digits (x : N) :
  forall s : string,
    all_chars is_digit s = true ->
    all_chars is_digit (pretty_N_go x s) = true
    /\ decimal_value (pretty_N_go x s)
       = Z.of_N x * 10 ^ Z.of_nat (String.length s) + decimal_value s.
Proof.
  induction (N.lt_wf_0 x) as [x _ IH]. intros s Hs.
  destruct (decide (x = 0)%N) as [-> | Hx].
  - rewrite pretty_N_go_0. split; [exact Hs | lia].
  - rewrite pretty_N_go_step by lia.
    destruct (pretty_N_char_digit (x `mod` 10)) as [Hc Hv].
    { apply N.mod_lt. lia. }
    destruct (IH (x `div` 10)%N) with (s := String (pretty_N_char (x `mod` 10)) s)
      as [Hdig Hval].
    + apply N.div_lt; lia.
    + simpl. rewrite Hc, Hs. reflexivity.
    + split; [exact Hdig |]. rewrite Hval. cbn [decimal_value String.length].
      rewrite Hv, Nat2Z.inj_succ, Z.pow_succ_r by lia.
      rewrite (N.div_mod x 10) at 3 by lia.
      rewrite N2Z.inj_add, N2Z.inj_mul. simpl Z.of_N. ring.
Qed.

Lemma pretty_N_literal (n : N) :
  digit_group (pretty n) /\ decimal_value (pretty n) = Z.of_N n.
Proof.
  unfold pretty, pretty_N. destruct (decide (n = 0)%N) as [-> | Hn].
  - split; [split; [discriminate | reflexivity] | reflexivity].
  - destruct (pretty_N_go_digits n "" eq_refl) as [Hdig Hval].
    simpl in Hval. rewrite Z.mul_1_r, Z.add_0_r in Hval.
    split; [split; [| exact Hdig] | exact Hval].
    intros Hempty. rewrite Hempty in Hval. simpl in Hval. lia.
Qed.

Lemma pretty_Z_literal (z : Z) : int_literal (pretty z) z.
Proof.
  destruct z as [|p|p]; unfold pretty, pretty_Z.
  - apply (plain_qubit_key_literal "0"). split; [discriminate | reflexivity].
  - destruct (pretty_N_literal (N.pos p)) as [Hg Hv].
    change (pretty p) with (pretty (N.pos p)).
    replace (Z.pos p) with (decimal_value (pretty (N.pos p))) by exact Hv.
    apply plain_qubit_key_literal, Hg.
  - destruct (pretty_N_literal (N.pos p)) as [Hg Hv].
    change (pretty p) with (pretty (N.pos p)).
    pose proof (int_literal_intro "" "" (pretty (N.pos p)) Minus []
                  eq_refl eq_refl Hg (Forall_nil_2 _)) as Hlit.
    change ("" +:+ sign_text Minus +:+ pretty (N.pos p) +:+ underscore_groups [] +:+ "")
      with ("-" +:+ pretty (N.pos p) +:+ "") in Hlit.
    cbn [apply_sign concat_groups] in Hlit.
    rewrite !string_app_nil_r, Hv in Hlit. exact Hlit.
Qed.


(** ** Qubit maps as dictionaries *)

Lemma dict_contains_set (k k' : Z) (v : value) (d : qmap) :
  dict_contains k (dict_set k' v d) = (k =? k') || dict_contains k d.
Proof.
  induction d as [|[k0 v0] d IH]; simpl.
  - destruct (k =? k'); reflexivity.
  - destruct (Z.eqb_spec k' k0) as [-> | Hne]; simpl.
    + destruct (k =? k0); reflexivity.
    + rewrite IH. destruct (Z.eqb_spec k k0) as [-> | _].
      * rewrite orb_true_r. reflexivity.
      * reflexivity.
Qed.

Lemma dict_lookup_set (k k' : Z) (v : value) (d : qmap) :
  dict_lookup k (dict_set k' v d) = if k =? k' then Some v else dict_lookup k d.
Proof.
  induction d as [|[k0 v0] d IH]; simpl; [reflexivity |].
  destruct (Z.eqb_spec k' k0) as [-> | Hne]; simpl.
  - destruct (k =? k0); reflexivity.
  - rewrite IH. destruct (Z.eqb_spec k k0) as [-> | _]; [| reflexivity].
    destruct (Z.eqb_spec k0 k'); [congruence | reflexivity].
Qed.

Lemma dict_set_fresh (k : Z) (v : value) (d : qmap) :
  dict_contains k d = false -> dict_set k v d = d ++ [(k, v)].
Proof.
  induction d as [|[k0 v0] d IH]; simpl; [reflexivity |].
  destruct (k =? k0); [discriminate |]. intros Hd. rewrite IH by exact Hd. reflexivity.
Qed.

Lemma dict_contains_app (k : Z) (d1 d2 : qmap) :
  dict_contains k (d1 ++ d2) = dict_contains k d1 || dict_contains k d2.
Proof.
  induction d1 as [|[k0 v0] d1 IH]; simpl; [reflexivity |].
  destruct (k =? k0); [reflexivity | exact IH].
Qed.

Lemma dict_contains_lookup (k : Z) (d : qmap) :
  dict_contains k d = true <-> is_Some (dict_lookup k d).
Proof.
  induction d as [|[k0 v0] d IH]; simpl.
  - split; [discriminate | intros [? [=]]].
  - destruct (k =? k0); [split; eauto | exact IH].
Qed.

Lemma dict_set_keys_NoDup (k : Z) (v : value) (d : qmap) :
  NoDup d.*1 -> NoDup (dict_set k v d).*1.
Proof.
  induction d as [|[k0 v0] d IH]; simpl; intros Hd.
  - constructor; [apply not_elem_of_nil | constructor].
  - inversion Hd as [|? ? Hk0 Hd']; subst.
    destruct (Z.eqb_spec k k0) as [-> | Hne]; simpl.
    + constructor; assumption.
    + constructor; [| apply IH, Hd'].
      intros Hin. apply Hk0. clear -Hin Hne.
      induction d as [|[k1 v1] d IH]; simpl in *.
      * apply list_elem_of_singleton in Hin. congruence.
      * destruct (Z.eqb_spec k k1) as [-> | Hne1]; simpl in *; [exact Hin |].
        apply elem_of_cons in Hin as [-> | Hin]; [left | right; apply IH, Hin].
Qed.

Lemma positions_from_cons (i : nat) (v : value) (targets : list value) :
  positions_from i (v :: targets) = (Z.of_nat i, v) :: positions_from (S i) targets.
Proof.
  unfold positions_from. simpl. rewrite Nat.add_0_r. f_equal.
  apply imap_ext. intros j x _. simpl. do 2 f_equal. lia.
Qed.

Lemma keywords_from_cons (i : nat) (v : value) (targets : list value) :
  keywords_from i (v :: targets)
  = ("q" +:+ pretty (Z.of_nat i), v) :: keywords_from (S i) targets.
Proof.
  unfold keywords_from. simpl. rewrite Nat.add_0_r. f_equal.
  apply imap_ext. intros j x _. simpl. do 3 f_equal. lia.
Qed.

Lemma dict_contains_positions (k : Z) (i : nat) (targets : list value) :
  dict_contains k (positions_from i targets) = true
  <-> Z.of_nat i <= k < Z.of_nat i + Z.of_nat (length targets).
Proof.
  revert i. induction targets as [|v targets IH]; intros i.
  - simpl. split; [discriminate | lia].
  - rewrite positions_from_cons. simpl.
    destruct (Z.eqb_spec k (Z.of_nat i)) as [-> | Hne]; [split; [lia | reflexivity] |].
    rewrite IH. lia.
Qed.

Lemma enumerate_loop_positions (targets : list value) :
  forall (i : nat) (d : qmap),
    (forall k, dict_contains k d = true -> k < Z.of_nat i) ->
    enumerate_loop (Z.of_nat i) targets d = d ++ positions_from i targets.
Proof.
  induction targets as [|v targets IH]; intros i d Hd.
  - simpl. rewrite app_nil_r. reflexivity.
  - rewrite positions_from_cons. simpl.
    assert (dict_contains (Z.of_nat i) d = false) as Hfresh.
    { destruct (dict_contains (Z.of_nat i) d) eqn:E; [| reflexivity].
      apply Hd in E. lia. }
    rewrite (dict_set_fresh _ _ _ Hfresh).
    replace (Z.of_nat i + 1) with (Z.of_nat (S i)) by lia.
    rewrite IH.
    + rewrite <- app_assoc. reflexivity.
    + intros k. rewrite dict_contains_app. simpl.
      intros [Hk | Hk]%orb_true_iff.
      * apply Hd in Hk. lia.
      * destruct (Z.eqb_spec k (Z.of_nat i)); [lia | discriminate].
Qed.

Lemma parse_list_positions (targets : list value) :
  _parse_qubit_map_from_list [VList targets] = Ret (positions_from 0 targets).
Proof.
  simpl. f_equal. apply (enumerate_loop_positions targets 0 []).
  intros k. discriminate.
Qed.

Lemma parse_variadic_positions (targets : list value) :
  targets <> [] ->
  Forall (fun v => isinstance_int v = true) targets ->
  _parse_qubit_map_from_list targets = Ret (positions_from 0 targets).
Proof.
  intros Hne Hint. destruct targets as [|v targets]; [congruence |].
  unfold _parse_qubit_map_from_list.
  assert ((match v with VList l => l | _ => v :: targets end) = v :: targets) as ->.
  { inversion Hint as [|? ? Hv _]; subst. destruct v; try reflexivity; discriminate. }
  f_equal. apply (enumerate_loop_positions (v :: targets) 0 []).
  intros k. discriminate.
Qed.

Lemma parse_kwargs_positions (targets : list value) :
  Forall (fun v => isinstance_int v = true) targets ->
  forall (i : nat) (d : qmap),
    (forall k, dict_contains k d = true -> k < Z.of_nat i) ->
    parse_kwargs_loop (keywords_from i targets) d = Ret (d ++ positions_from i targets).
Proof.
  induction 1 as [|v targets Hv _ IH]; intros i d Hd.
  - simpl. rewrite app_nil_r. reflexivity.
  - rewrite keywords_from_cons, positions_from_cons.
    cbn [parse_kwargs_loop]. change ("q" +:+ pretty (Z.of_nat i))
      with (String "q" (pretty (Z.of_nat i))).
    cbn [String.eqb Ascii.eqb Bool.eqb]. cbn iota.
    change (String "q" (pretty (Z.of_nat i))) with ("q" +:+ pretty (Z.of_nat i)).
    assert (_check_qubit_key ("q" +:+ pretty (Z.of_nat i)) = Ret (Some (Z.of_nat i)))
      as -> by (apply check_qubit_key_Some; eexists; split;
                [reflexivity | apply pretty_Z_literal]).
    cbn [result_bind]. rewrite Hv. cbn [negb].
    assert (dict_contains (Z.of_nat i) d = false) as Hfresh.
    { destruct (dict_contains (Z.of_nat i) d) eqn:E; [| reflexivity].
      apply Hd in E. lia. }
    rewrite (dict_set_fresh _ _ _ Hfresh), IH.
    + rewrite <- app_assoc. reflexivity.
    + intros k. rewrite dict_contains_app. simpl.
      intros [Hk | Hk]%orb_true_iff.
      * apply Hd in Hk. lia.
      * destruct (Z.eqb_spec k (Z.of_nat i)); [lia | discriminate].
Qed.

(** ** Keyword arguments *)

Lemma parse_kwargs_loop_raises (kwargs : kwargs_t) :
  forall d : qmap,
    (exists e, parse_kwargs_loop kwargs d = Raise e) <-> Exists bad_keyword kwargs.
Proof.
  induction kwargs as [|[key v] kwargs IH]; intros d.
  - simpl. split; [intros [e [=]] | intros H; inversion H].
  - rewrite Exists_cons. cbn [parse_kwargs_loop]. unfold bad_keyword at 1. simpl.
    destruct (String.eqb_spec key "n_qubit") as [-> | Hkey].
    + rewrite IH. split; [auto | intros [[Hne _] | H]; [congruence | exact H]].
    + destruct (check_qubit_key_returns key) as [[q|] Hq]; rewrite Hq; simpl.
      * destruct (isinstance_int v) eqn:Hv; simpl.
        -- rewrite IH. split; [auto |].
           intros [[_ [Hnone | Hnot]] | H]; [congruence | congruence | exact H].
        -- split; [intros _ | eauto]. left. auto.
      * split; [intros _ | eauto]. left. auto.
Qed.

Lemma parse_kwargs_loop_runtime_error (kwargs : kwargs_t) :
  forall (d : qmap) (e : exn),
    parse_kwargs_loop kwargs d = Raise e -> exists msg, e = RuntimeError msg.
Proof.
  induction kwargs as [|[key v] kwargs IH]; intros d e; cbn [parse_kwargs_loop].
  - discriminate.
  - destruct (String.eqb key "n_qubit"); [apply IH |].
    destruct (check_qubit_key_returns key) as [[q|] Hq]; rewrite Hq; simpl.
    + destruct (isinstance_int v); simpl; [apply IH | intros [= <-]; eauto].
    + intros [= <-]. eauto.
Qed.

Lemma parse_kwargs_loop_keys (kwargs : kwargs_t) :
  forall d m : qmap,
    parse_kwargs_loop kwargs d = Ret m ->
    (NoDup d.*1 -> NoDup m.*1)
    /\ (forall q, dict_contains q m = true
                  <-> dict_contains q d = true
                      \/ exists key v, (key, v) ∈ kwargs /\ key <> "n_qubit"%string
                                       /\ _check_qubit_key key = Ret (Some q))
    /\ (forall q v, dict_lookup q m = Some v ->
                    dict_lookup q d = Some v
                    \/ exists key, (key, v) ∈ kwargs /\ key <> "n_qubit"%string
                                   /\ _check_qubit_key key = Ret (Some q)).
Proof.
  induction kwargs as [|[key v] kwargs IH]; intros d m; cbn [parse_kwargs_loop].
  - intros [= <-]. split; [auto |]. split.
    + intros q. split; [auto |]. intros [H | (key & v & Hin & _)]; [exact H |].
      inversion Hin.
    + auto.
  - destruct (String.eqb_spec key "n_qubit") as [-> | Hkey].
    + intros Hm. destruct (IH _ _ Hm) as (Hnd & Hdom & Hval). split; [exact Hnd |]. split.
      * intros q. rewrite Hdom. split.
        -- intros [H | (k & w & Hin & Hk)]; [auto |]. right. exists k, w.
           split; [right; exact Hin | exact Hk].
        -- intros [H | (k & w & Hin & Hne & Hk)]; [auto |]. right.
           apply elem_of_cons in Hin as [[= -> ->] | Hin]; [congruence |]. eauto.
      * intros q w Hq. destruct (Hval _ _ Hq) as [H | (k & Hin & Hk)]; [auto |].
        right. exists k. split; [right; exact Hin | exact Hk].
    + destruct (check_qubit_key_returns key) as [[q0|] Hq0]; rewrite Hq0; simpl;
        [| discriminate].
      destruct (isinstance_int v); simpl; [| discriminate].
      intros Hm. destruct (IH _ _ Hm) as (Hnd & Hdom & Hval). split; [| split].
      * intros Hd. apply Hnd, dict_set_keys_NoDup, Hd.
      * intros q. rewrite Hdom, dict_contains_set. split.
        -- intros [[Hq | Hq]%orb_true_iff | (k & w & Hin & Hk)].
           ++ apply Z.eqb_eq in Hq as ->. right. exists key, v.
              split; [left | auto].
           ++ auto.
           ++ right. exists k, w. split; [right; exact Hin | exact Hk].
        -- intros [Hq | (k & w & Hin & Hne & Hk)].
           ++ left. rewrite Hq. apply orb_true_r.
           ++ apply elem_of_cons in Hin as [[= -> ->] | Hin].
              ** left. assert (q = q0) as -> by congruence.
                 rewrite Z.eqb_refl. reflexivity.
              ** right. eauto.
      * intros q w Hq. destruct (Hval _ _ Hq) as [H | (k & Hin & Hk)].
        -- rewrite dict_lookup_set in H. destruct (Z.eqb_spec q q0) as [-> | _].
           ++ injection H as <-. right. exists key. split; [left | auto].
           ++ auto.
        -- right. exists k. split; [right; exact Hin | exact Hk].
Qed.

Lemma check_qubit_map_loop_spec (involved : list Z) (qubit_map : qmap) :
  check_qubit_map_loop involved qubit_map = true
  <-> Forall (fun q => dict_contains q qubit_map = true) involved.
Proof.
  induction involved as [|q involved IH]; simpl.
  - split; [constructor | reflexivity].
  - destruct (dict_contains q qubit_map) eqn:Hq; simpl.
    + rewrite IH. split; [intros H; constructor; assumption |].
      intros H. inversion H; assumption.
    + split; [discriminate |]. intros H. inversion H; congruence.
Qed.

Section StoreFrames.
Context {Gate Angle : Type} `{!GateContract Gate Angle}.
Implicit Types (h : list (circuit (Gate := Gate))) (c : circuit (Gate := Gate)).
Implicit Types (memo : gmap nat nat).
Local Open Scope py_scope.

(** ** What the methods leave alone *)

Lemma assign_by_map_returns_new (depth : nat) (self : loc) (qubit_map : qmap) h
    (l : loc) h' :
  assign_by_map depth self qubit_map h = (Ret l, h') -> l = length h.
Proof.
  destruct depth as [|depth]; simpl; [discriminate |].
  unfold _check_qubit_map. run_py. destruct (negb _); [discriminate |].
  match goal with
  | |- context [assign_gates ?ga ?ret ?gl ?s] =>
      destruct (assign_gates ga ret gl s) as [[[]|e] h2]
  end; [intros [= <- _]; reflexivity | discriminate].
Qed.

(** [assign] in terms of the map its arguments parse to. *)
Lemma assign_unfold (depth : nat) (self : loc) (args : list value) (kwargs : kwargs_t) h :
  assign depth self args kwargs h
  = match (if (0 <? length args)%nat then _parse_qubit_map_from_list args
           else _parse_qubit_map_from_kwargs kwargs) with
    | Ret qubit_map =>
        match assign_by_map depth self qubit_map h with
        | (Ret ret, h1) =>
            (Ret ret,
             match class_of (h !!! self) with
             | Circuit => h1
             | Fragment => alter (set_expand false) ret h1
             end)
        | (Raise e, h1) => (Raise e, h1)
        end
    | Raise e => (Raise e, h)
    end.
Proof.
  unfold assign, Fragment_assign, Circuit_assign.
  unfold st_bind at 1. unfold read at 1.
  destruct (class_of (h !!! self)), (0 <? length args)%nat;
    unfold st_bind, lift_result, st_ret, update;
    match goal with
    | |- context [match ?p with Ret _ => _ | Raise _ => _ end] =>
        match type of p with result qmap => destruct p as [m|e]; [| reflexivity] end
    end;
    destruct (assign_by_map depth self m h) as [[ret|e] h1]; reflexivity.
Qed.

Lemma assign_stable (depth : nat) (self : loc) (args : list value) (kwargs : kwargs_t)
    h r h' :
  assign depth self args kwargs h = (r, h') -> stable (length h) h h'.
Proof.
  rewrite assign_unfold.
  destruct (if (0 <? length args)%nat then _ else _) as [m|e];
    [| intros [= <- <-]; apply stable_refl].
  destruct (assign_by_map depth self m h) as [[ret|e] h1] eqn:E.
  - pose proof (assign_by_map_returns_new _ _ _ _ _ _ E) as ->.
    apply assign_by_map_stable in E. intros [= <- <-].
    destruct (class_of (h !!! self)); [exact E |].
    eapply stable_trans; [exact E |]. apply stable_alter.
    destruct E as [? _]. lia.
  - apply assign_by_map_stable in E. intros [= <- <-]. exact E.
Qed.

Lemma deepcopy_entries_stable (copy : loc -> state_exn (copy_state (Gate := Gate)) loc) :
  (forall x h memo r h' memo',
     copy x (h, memo) = (r, (h', memo')) -> stable (length h) h h') ->
  forall (entries : list entry) h memo r h' memo',
    deepcopy_entries copy entries (h, memo) = (r, (h', memo')) ->
    stable (length h) h h'.
Proof.
  intros Hcopy. induction entries as [|[g|l] rest IH]; intros h memo r h' memo'; simpl.
  - unfold st_ret. intros [= <- <- <-]. apply stable_refl.
  - unfold st_bind, st_ret.
    destruct (deepcopy_entries copy rest (h, memo)) as [[gl|e] [h1 memo1]] eqn:E;
      apply IH in E; intros [= <- <- <-]; exact E.
  - unfold st_bind, st_ret.
    destruct (copy l (h, memo)) as [[y|e] [h1 memo1]] eqn:E1; apply Hcopy in E1.
    + destruct (deepcopy_entries copy rest (h1, memo1)) as [[gl|e] [h2 memo2]] eqn:E2;
        apply IH in E2; intros [= <- <- <-];
        (eapply stable_trans; [exact E1 |]);
        (eapply stable_mono; [| exact E2]); apply E1.
    + intros [= <- <- <-]. exact E1.
Qed.

Lemma deepcopy_circuit_stable (depth : nat) :
  forall (x : loc) h memo r h' memo',
    deepcopy_circuit depth x (h, memo) = (r, (h', memo')) -> stable (length h) h h'.
Proof.
  induction depth as [|depth IH]; intros x h memo r h' memo'; simpl.
  - unfold raise. intros [= <- <- <-]. apply stable_refl.
  - destruct (memo !! x); [intros [= <- <- <-]; apply stable_refl |].
    destruct (deepcopy_entries (deepcopy_circuit depth) (gate_list (h !!! x))
                (h ++ [Circuit_init None], <[x := length h]> memo))
      as [[gl|e] [h2 memo2]] eqn:E;
      apply (deepcopy_entries_stable _ IH) in E; intros [= <- <- <-].
    + eapply stable_trans; [apply (stable_alloc _ h); lia |].
      eapply stable_trans; [eapply stable_mono; [| exact E] |].
      * rewrite length_app. simpl. lia.
      * apply stable_insert. lia.
    + eapply stable_trans; [apply (stable_alloc _ h); lia |].
      eapply stable_mono; [| exact E]. rewrite length_app. simpl. lia.
Qed.

Lemma deepcopy_stable (depth : nat) (x : loc) h r h' :
  deepcopy depth x h = (r, h') -> stable (length h) h h'.
Proof.
  unfold deepcopy.
  destruct (deepcopy_circuit depth x (h, ∅)) as [r1 [h1 memo1]] eqn:E.
  apply deepcopy_circuit_stable in E. intros [= <- <-]. exact E.
Qed.

(** [_append_circuit] in terms of the object it operates on. *)
Lemma append_circuit_unfold (depth : nat) (self B : loc) (expand_arg : value) h :
  _append_circuit depth self B expand_arg h
  = if is_Fragment (class_of (h !!! B)) then
      (Raise (RuntimeError "Append a fragment circuit without assigning qubits."), h)
    else
      match (if Nat.eqb B self then deepcopy depth B h else (Ret B, h)) with
      | (Ret nc, h1) =>
          let h2 := alter (fun c => set_involved_qubits
                             (merge_qubits (involved_qubits c)
                                (involved_qubits (h1 !!! nc))) c) self h1 in
          (Ret tt,
           alter (fun c => set_gate_list
                    (gate_list c ++
                     (if truthy expand_arg || expand (h2 !!! nc)
                      then gate_list (h2 !!! nc) else [ECirc nc])) c) self h2)
      | (Raise e, h1) => (Raise e, h1)
      end.
Proof.
  unfold _append_circuit. run_py.
  destruct (is_Fragment _); [reflexivity |].
  destruct (Nat.eqb B self).
  - destruct (deepcopy depth B h) as [[nc|e] h1]; [| reflexivity]. cbv zeta.
    destruct (truthy expand_arg || _); reflexivity.
  - cbv zeta. destruct (truthy expand_arg || _); reflexivity.
Qed.

End StoreFrames.

(** ** Merging involved qubits *)

Lemma list_contains_spec (q : Z) (qubits : list Z) :
  list_contains q qubits = true <-> q ∈ qubits.
Proof.
  induction qubits as [|q' qubits IH]; simpl.
  - split; [discriminate | intros H; inversion H].
  - rewrite elem_of_cons. destruct (Z.eqb_spec q q') as [-> | Hne].
    + split; auto.
    + rewrite IH. split; [auto | intros [? | ?]; [congruence | assumption]].
Qed.

Lemma merge_qubits_prefix (qubits involved : list Z) :
  involved `prefix_of` merge_qubits involved qubits.
Proof.
  revert involved. induction qubits as [|q qubits IH]; intros involved; simpl.
  - reflexivity.
  - destruct (list_contains q involved); simpl; [apply IH |].
    etrans; [| apply IH]. apply prefix_app_r. reflexivity.
Qed.

Lemma merge_qubits_elem (qubits involved : list Z) (q : Z) :
  q ∈ merge_qubits involved qubits <-> q ∈ involved \/ q ∈ qubits.
Proof.
  revert involved. induction qubits as [|q' qubits IH]; intros involved; simpl.
  - split; [auto | intros [? | H]; [assumption | inversion H]].
  - rewrite IH, elem_of_cons.
    destruct (list_contains q' involved) eqn:Hq'; simpl.
    + apply list_contains_spec in Hq'. split; [tauto |].
      intros [? | [-> | ?]]; auto.
    + rewrite elem_of_app, list_elem_of_singleton. tauto.
Qed.

Lemma merge_qubits_NoDup (qubits involved : list Z) :
  NoDup involved -> NoDup (merge_qubits involved qubits).
Proof.
  revert involved. induction qubits as [|q qubits IH]; intros involved Hnd; simpl.
  - exact Hnd.
  - apply IH. destruct (list_contains q involved) eqn:Hq; simpl; [exact Hnd |].
    apply NoDup_app. split; [exact Hnd |]. split; [| apply NoDup_singleton].
    intros q' Hin ->%list_elem_of_singleton.
    apply list_contains_spec in Hin. congruence.
Qed.

Section StoreInvariants.
Context {Gate Angle : Type} `{!GateContract Gate Angle}.
Implicit Types (h : list (circuit (Gate := Gate))) (c : circuit (Gate := Gate)).
Implicit Types (memo : gmap nat nat).
Local Open Scope py_scope.

(** ** The involved qubits cover the gates *)

Lemma gates_of_app (l1 l2 : list (entry (Gate := Gate))) :
  gates_of (l1 ++ l2) = gates_of l1 ++ gates_of l2.
Proof.
  induction l1 as [|[g|l] l1 IH]; simpl; [reflexivity | f_equal; exact IH | exact IH].
Qed.

Lemma same_gate_gates_of (l1 l2 : list (entry (Gate := Gate))) :
  Forall2 same_gate l1 l2 -> gates_of l2 = gates_of l1.
Proof.
  induction 1 as [|[g|l] [g'|l'] l1 l2 Hsame _ IH]; simpl in *;
    try contradiction; [reflexivity | subst; f_equal; exact IH | exact IH].
Qed.

Lemma circuit_ok_init (name : option string) :
  circuit_ok (Circuit_init (Gate := Gate) name)
  /\ circuit_ok (Fragment_init (Gate := Gate) name).
Proof.
  split; (split; [intros g q Hg; inversion Hg | constructor]).
Qed.

Lemma circuit_ok_default : circuit_ok (inhabitant : circuit (Gate := Gate)).
Proof. apply (circuit_ok_init None). Qed.

Lemma circuit_ok_lookup h (l : loc) : store_ok h -> circuit_ok (h !!! l).
Proof.
  intros Hok. rewrite list_lookup_total_alt.
  destruct (h !! l) as [c|] eqn:Hl; simpl; [| apply circuit_ok_default].
  unfold store_ok in Hok. rewrite Forall_forall in Hok.
  eapply Hok, list_elem_of_lookup_2, Hl.
Qed.

Lemma circuit_ok_merge c (qubits : list Z) :
  circuit_ok c ->
  circuit_ok (set_involved_qubits (merge_qubits (involved_qubits c) qubits) c).
Proof.
  intros [Hcov Hnd]. split; simpl.
  - intros g q Hg Hq. apply merge_qubits_elem. left. eapply Hcov; eassumption.
  - apply merge_qubits_NoDup, Hnd.
Qed.

Lemma circuit_ok_extend c (entries : list entry) :
  circuit_ok c ->
  (forall g q, g ∈ gates_of entries -> q ∈ gate_involved_qubits g ->
               q ∈ involved_qubits c) ->
  circuit_ok (set_gate_list (gate_list c ++ entries) c).
Proof.
  intros [Hcov Hnd] Hnew. split; simpl; [| exact Hnd].
  intros g q. rewrite gates_of_app, elem_of_app. intros [Hg | Hg] Hq.
  - eapply Hcov; eassumption.
  - eapply Hnew; eassumption.
Qed.

Lemma circuit_ok_copy c (gl : list entry) :
  circuit_ok c -> Forall2 same_gate (gate_list c) gl -> circuit_ok (set_gate_list gl c).
Proof.
  intros [Hcov Hnd] Hsame. split; simpl; [| exact Hnd].
  rewrite (same_gate_gates_of _ _ Hsame). exact Hcov.
Qed.

Lemma store_ok_alter h (l : loc) (f : circuit -> circuit) :
  store_ok h ->
  (forall c, h !! l = Some c -> circuit_ok c -> circuit_ok (f c)) ->
  store_ok (alter f l h).
Proof. intros Hok Hf. apply Forall_alter; assumption. Qed.

Lemma store_ok_alloc h c : store_ok h -> circuit_ok c -> store_ok (h ++ [c]).
Proof.
  intros Hok Hc. apply Forall_app. split; [exact Hok |].
  constructor; [exact Hc | constructor].
Qed.

Lemma store_ok_insert h (l : loc) c : store_ok h -> circuit_ok c -> store_ok (<[l := c]> h).
Proof.
  intros Hok Hc. destruct (decide (l < length h)%nat).
  - apply Forall_insert; assumption.
  - rewrite list_insert_ge by lia. exact Hok.
Qed.

Lemma append_gate_ok (self : loc) (gate_object : entry) h r h' :
  store_ok h -> _append_gate self gate_object h = (r, h') -> store_ok h'.
Proof.
  intros Hok. unfold _append_gate, call_involved_qubits.
  destruct gate_object as [g|l]; run_py; intros [= <- <-]; [| exact Hok].
  rewrite list_alter_alter_eq. apply store_ok_alter; [exact Hok |].
  intros c _ [Hcov Hnd]. split; simpl.
  - intros g' q. rewrite gates_of_app, elem_of_app. simpl.
    rewrite list_elem_of_singleton, merge_qubits_elem.
    intros [Hg | ->] Hq; [left; eapply Hcov; eassumption | right; exact Hq].
  - apply merge_qubits_NoDup, Hnd.
Qed.

Lemma assign_gates_ok (gate_assign : entry -> M entry) (ret : loc)
    (gates : list entry) :
  (forall gate h r h', store_ok h -> gate_assign gate h = (r, h') -> store_ok h') ->
  forall h r h',
    store_ok h -> assign_gates gate_assign ret gates h = (r, h') -> store_ok h'.
Proof.
  intros Hassign. induction gates as [|gate rest IH]; intros h r h' Hok; simpl.
  - run_py. intros [= <- <-]. exact Hok.
  - unfold st_bind.
    destruct (gate_assign gate h) as [[assigned|e] h1] eqn:E1.
    + pose proof (Hassign _ _ _ _ Hok E1) as Hok1.
      destruct (_append_gate ret assigned h1) as [[[]|e] h2] eqn:E2.
      * apply IH. eapply append_gate_ok; eassumption.
      * intros [= <- <-]. eapply append_gate_ok; eassumption.
    + intros [= <- <-]. eapply Hassign; eassumption.
Qed.

Lemma assign_by_map_ok (depth : nat) :
  forall (self : loc) (qubit_map : qmap) h r h',
    store_ok h -> assign_by_map depth self qubit_map h = (r, h') -> store_ok h'.
Proof.
  induction depth as [|depth IH]; intros self qubit_map h r h' Hok.
  - simpl. run_py. intros [= <- <-]. exact Hok.
  - assert (store_ok (h ++ [Circuit_init (name (h !!! self))])) as Hok1
      by (apply store_ok_alloc; [exact Hok | apply circuit_ok_init]).
    simpl. unfold _check_qubit_map. run_py.
    destruct (negb _).
    + intros [= <- <-]. exact Hok1.
    + match goal with
      | |- context [assign_gates ?ga ?ret ?gl ?s] =>
          destruct (assign_gates ga ret gl s) as [rr h2] eqn:E
      end.
      apply assign_gates_ok in E.
      * intros Hr. assert (h2 = h') as <- by (destruct rr; congruence). exact E.
      * intros [g|l] s r0 s' Hs.
        -- intros [= <- <-]. exact Hs.
        -- destruct (assign_by_map depth l qubit_map s) as [r1 s1] eqn:E1.
           apply IH in E1; [| exact Hs]. intros Hr.
           assert (s1 = s') as <- by (destruct r1; congruence). exact E1.
      * apply store_ok_alter; [exact Hok1 |]. intros c _ Hc. exact Hc.
Qed.

Lemma deepcopy_entries_ok (copy : loc -> state_exn (copy_state (Gate := Gate)) loc) :
  (forall x h memo r h' memo',
     store_ok h -> copy x (h, memo) = (r, (h', memo')) -> store_ok h') ->
  forall (entries : list entry) h memo r h' memo',
    store_ok h ->
    deepcopy_entries copy entries (h, memo) = (r, (h', memo')) ->
    store_ok h' /\ forall gl, r = Ret gl -> Forall2 same_gate entries gl.
Proof.
  intros Hcopy. induction entries as [|[g|l] rest IH];
    intros h memo r h' memo' Hok; simpl.
  - unfold st_ret. intros [= <- <- <-]. split; [exact Hok |].
    intros gl [= <-]. constructor.
  - unfold st_bind, st_ret.
    destruct (deepcopy_entries copy rest (h, memo)) as [[gl1|e] [h1 memo1]] eqn:E;
      apply IH in E as [Hok1 Hgl]; try exact Hok; intros [= <- <- <-];
      (split; [exact Hok1 |]); [| discriminate].
    intros gl [= <-]. constructor; [reflexivity | apply Hgl; reflexivity].
  - unfold st_bind, st_ret.
    destruct (copy l (h, memo)) as [[y|e] [h1 memo1]] eqn:E1;
      apply Hcopy in E1; try exact Hok.
    + destruct (deepcopy_entries copy rest (h1, memo1)) as [[gl2|e] [h2 memo2]] eqn:E2;
        apply IH in E2 as [Hok2 Hgl]; try exact E1; intros [= <- <- <-];
        (split; [exact Hok2 |]); [| discriminate].
      intros gl [= <-]. constructor; [exact I | apply Hgl; reflexivity].
    + intros [= <- <- <-]. split; [exact E1 | discriminate].
Qed.

Lemma deepcopy_circuit_ok (depth : nat) :
  forall (x : loc) h memo r h' memo',
    store_ok h -> deepcopy_circuit depth x (h, memo) = (r, (h', memo')) -> store_ok h'.
Proof.
  induction depth as [|depth IH]; intros x h memo r h' memo' Hok; simpl.
  - unfold raise. intros [= <- <- <-]. exact Hok.
  - destruct (memo !! x); [intros [= <- <- <-]; exact Hok |].
    destruct (deepcopy_entries (deepcopy_circuit depth) (gate_list (h !!! x))
                (h ++ [Circuit_init None], <[x := length h]> memo))
      as [[gl|e] [h2 memo2]] eqn:E;
      apply (deepcopy_entries_ok _ IH) in E as [Hok2 Hgl];
      try (apply store_ok_alloc; [exact Hok | apply circuit_ok_init]);
      intros [= <- <- <-]; [| exact Hok2].
    apply store_ok_insert; [exact Hok2 |].
    apply circuit_ok_copy; [apply circuit_ok_lookup, Hok | apply Hgl; reflexivity].
Qed.

Lemma deepcopy_ok (depth : nat) (x : loc) h r h' :
  store_ok h -> deepcopy depth x h = (r, h') -> store_ok h'.
Proof.
  intros Hok. unfold deepcopy.
  destruct (deepcopy_circuit depth x (h, ∅)) as [r1 [h1 memo1]] eqn:E.
  apply deepcopy_circuit_ok in E; [| exact Hok]. intros [= <- <-]. exact E.
Qed.

End StoreInvariants.

Section StoreTheorems.
Context {Gate Angle : Type} `{!GateContract Gate Angle}.
Implicit Types (h : list (circuit (Gate := Gate))) (c : circuit (Gate := Gate)).
Local Open Scope py_scope.

Lemma append_circuit_ok (depth : nat) (self B : loc) (expand_arg : value) h r h' :
  store_ok h -> _append_circuit depth self B expand_arg h = (r, h') -> store_ok h'.
Proof.
  intros Hok. rewrite append_circuit_unfold.
  destruct (is_Fragment _); [intros [= <- <-]; exact Hok |].
  destruct (if Nat.eqb B self then deepcopy depth B h else (Ret B, h))
    as [[nc|e] h1] eqn:E.
  - assert (store_ok h1) as Hok1.
    { destruct (Nat.eqb B self); [eapply deepcopy_ok; eassumption |].
      injection E as <- <-. exact Hok. }
    cbv zeta. intros [= <- <-].
    set (f1 := fun c => set_involved_qubits
                 (merge_qubits (involved_qubits c) (involved_qubits (h1 !!! nc))) c).
    set (h2 := alter f1 self h1).
    assert (store_ok h2) as Hok2.
    { apply store_ok_alter; [exact Hok1 |]. intros c _. apply circuit_ok_merge. }
    apply store_ok_alter; [exact Hok2 |]. intros c Hc Hcok.
    apply circuit_ok_extend; [exact Hcok |].
    destruct (truthy expand_arg || expand (h2 !!! nc)); [| intros g q Hg; inversion Hg].
    intros g q Hg Hq.
    assert (q ∈ involved_qubits (h2 !!! nc)) as Hin
      by (eapply (circuit_ok_lookup h2 nc Hok2); eassumption).
    destruct (decide (nc = self)) as [-> | Hne].
    + rewrite list_lookup_total_alt, Hc in Hin. exact Hin.
    + unfold h2 in Hin, Hc. rewrite list_lookup_total_alter_ne in Hin by congruence.
      rewrite list_lookup_alter_eq in Hc.
      destruct (h1 !! self) as [c1|]; simpl in Hc; [| discriminate].
      injection Hc as <-. simpl. apply merge_qubits_elem. right. exact Hin.
  - intros [= <- <-]. destruct (Nat.eqb B self); [| discriminate E].
    eapply deepcopy_ok; eassumption.
Qed.

(** X8: in every store the methods build, each circuit lists among its
    involved qubits, once each, every qubit of every gate it holds: the
    constructors establish this and [append], [assign] and the gate
    builders keep it, whatever their outcome. *)
Theorem involved_qubits_cover_gates (depth : nat) (self : loc) (object : pyobject)
    (args : list value) (kwargs : kwargs_t) (qubit : Z) (angle : Angle)
    (name : option string) h :
  store_ok h ->
  store_ok (h ++ [Circuit_init name])
  /\ store_ok (h ++ [Fragment_init name])
  /\ store_ok (snd (append depth self object kwargs h))
  /\ store_ok (snd (assign depth self args kwargs h))
  /\ store_ok (snd (rx self qubit angle h))
  /\ store_ok (snd (ry self qubit angle h))
  /\ store_ok (snd (rz self qubit angle h)).
Proof.
  intros Hok.
  assert (forall g, store_ok (snd (_append_gate self (EGate g) h))) as Hgate.
  { intros g. destruct (_append_gate self (EGate g) h) as [r h'] eqn:E.
    eapply append_gate_ok; eassumption. }
  split; [apply store_ok_alloc; [exact Hok | apply circuit_ok_init] |].
  split; [apply store_ok_alloc; [exact Hok | apply circuit_ok_init] |].
  split; [| split; [| split; [apply (Hgate (Rx qubit angle)) |
                     split; [apply (Hgate (Ry qubit angle)) |
                             apply (Hgate (Rz qubit angle))]]]].
  - destruct object as [B|g|v]; simpl.
    + destruct (_append_circuit depth self B (expand_argument kwargs) h) as [r h'] eqn:E.
      eapply append_circuit_ok; eassumption.
    + apply Hgate.
    + exact Hok.
  - rewrite assign_unfold.
    destruct (if (0 <? length args)%nat then _ else _) as [m|e]; [| exact Hok].
    destruct (assign_by_map depth self m h) as [[ret|e] h1] eqn:E;
      apply assign_by_map_ok in E; try exact Hok; simpl; [| exact E].
    destruct (class_of (h !!! self)); [exact E |].
    apply store_ok_alter; [exact E |]. intros c _ Hc. exact Hc.
Qed.

(** X9: [append] changes no object of the store other than its receiver
    (the appended circuit included, when it is another object), removes
    none, and when it raises has not changed the receiver either. *)
Theorem append_changes_only_receiver (depth : nat) (self : loc) (object : pyobject)
    (kwargs : kwargs_t) h r h' :
  append depth self object kwargs h = (r, h') ->
  (length h <= length h')%nat
  /\ (forall l, (l < length h)%nat -> l <> self -> h' !! l = h !! l)
  /\ (forall e, r = Raise e -> forall l, (l < length h)%nat -> h' !! l = h !! l).
Proof.
  destruct object as [B|g|v]; simpl.
  - rewrite append_circuit_unfold.
    destruct (is_Fragment _); [intros [= <- <-]; auto |].
    destruct (if Nat.eqb B self then deepcopy depth B h else (Ret B, h))
      as [[nc|e] h1] eqn:E.
    + assert (stable (length h) h h1) as [Hlen Hsame].
      { destruct (Nat.eqb B self); [eapply deepcopy_stable, E |].
        injection E as <- <-. apply stable_refl. }
      cbv zeta. intros [= <- <-]. rewrite !length_alter.
      split; [exact Hlen |]. split; [| discriminate].
      intros l Hl Hne. rewrite !list_lookup_alter_ne by congruence. apply Hsame, Hl.
    + assert (stable (length h) h h1) as [Hlen Hsame].
      { destruct (Nat.eqb B self); [eapply deepcopy_stable, E | discriminate E]. }
      intros [= <- <-]. auto.
  - unfold _append_gate, call_involved_qubits. run_py. intros [= <- <-].
    rewrite !length_alter. split; [lia |]. split; [| discriminate].
    intros l Hl Hne. rewrite !list_lookup_alter_ne by congruence. reflexivity.
  - unfold raise. intros [= <- <-]. auto.
Qed.

(** X10: [append] only adds to its receiver: the [gate_list] and the
    [involved_qubits] it had are prefixes of those it has afterwards. *)
Theorem append_only_grows (depth : nat) (self : loc) (object : pyobject)
    (kwargs : kwargs_t) h r h' :
  (self < length h)%nat ->
  append depth self object kwargs h = (r, h') ->
  gate_list (h !!! self) `prefix_of` gate_list (h' !!! self)
  /\ involved_qubits (h !!! self) `prefix_of` involved_qubits (h' !!! self).
Proof.
  intros Hself. destruct object as [B|g|v]; simpl.
  - rewrite append_circuit_unfold.
    destruct (is_Fragment _); [intros [= <- <-]; split; reflexivity |].
    destruct (if Nat.eqb B self then deepcopy depth B h else (Ret B, h))
      as [[nc|e] h1] eqn:E.
    + assert (stable (length h) h h1) as Hst.
      { destruct (Nat.eqb B self); [eapply deepcopy_stable, E |].
        injection E as <- <-. apply stable_refl. }
      assert (self < length h1)%nat as Hself1 by (destruct Hst as [? _]; lia).
      cbv zeta. intros [= <- <-].
      rewrite lookup_total_alter_twice by exact Hself1.
      rewrite (lookup_total_stable _ _ _ _ Hst Hself). simpl.
      split; [apply prefix_app_r; reflexivity | apply merge_qubits_prefix].
    + assert (stable (length h) h h1) as Hst.
      { destruct (Nat.eqb B self); [eapply deepcopy_stable, E | discriminate E]. }
      intros [= <- <-]. rewrite (lookup_total_stable _ _ _ _ Hst Hself).
      split; reflexivity.
  - unfold _append_gate, call_involved_qubits. run_py. intros [= <- <-].
    rewrite lookup_total_alter_twice by exact Hself. simpl.
    split; [apply prefix_app_r; reflexivity | apply merge_qubits_prefix].
  - unfold raise. intros [= <- <-]. split; reflexivity.
Qed.

(** X11: [_append_gate] puts the gate last in [gate_list] and adds to
    [involved_qubits], after those already there, exactly the qubits of
    the gate that were missing; qubits listed once each stay so. *)
Theorem append_gate_bookkeeping (self : loc) (g : Gate) h :
  (self < length h)%nat ->
  exists h',
    _append_gate self (EGate g) h = (Ret tt, h')
    /\ gate_list (h' !!! self) = gate_list (h !!! self) ++ [EGate g]
    /\ involved_qubits (h !!! self) `prefix_of` involved_qubits (h' !!! self)
    /\ (forall q, q ∈ involved_qubits (h' !!! self)
                  <-> q ∈ involved_qubits (h !!! self) \/ q ∈ gate_involved_qubits g)
    /\ (NoDup (involved_qubits (h !!! self)) -> NoDup (involved_qubits (h' !!! self))).
Proof.
  intros Hself. unfold _append_gate, call_involved_qubits. run_py.
  eexists. split; [reflexivity |].
  rewrite lookup_total_alter_twice by exact Hself. simpl.
  split; [reflexivity |]. split; [apply merge_qubits_prefix |].
  split; [intros q; apply merge_qubits_elem | apply merge_qubits_NoDup].
Qed.

(** X12: whatever its outcome, also when it raises or meets nested
    circuits, [assign] leaves every existing object as it was; anything
    it writes, it writes to objects it allocates. *)
Theorem assign_never_mutates (depth : nat) (self : loc) (args : list value)
    (kwargs : kwargs_t) h r h' :
  assign depth self args kwargs h = (r, h') ->
  (length h <= length h')%nat /\ forall l c, h !! l = Some c -> h' !! l = Some c.
Proof.
  rewrite assign_unfold.
  destruct (if (0 <? length args)%nat then _ else _) as [m|e];
    [| intros [= <- <-]; auto].
  destruct (assign_by_map depth self m h) as [[ret|e] h1] eqn:E.
  - pose proof (assign_by_map_returns_new _ _ _ _ _ _ E) as ->.
    apply assign_by_map_stable in E. destruct E as [Hlen Hsame]. intros [= <- <-].
    assert (forall l c, h !! l = Some c -> h1 !! l = Some c) as Hkeep.
    { intros l c Hl. rewrite Hsame; [exact Hl |]. eapply lookup_lt_Some, Hl. }
    destruct (class_of (h !!! self)); [auto |].
    rewrite length_alter. split; [exact Hlen |]. intros l c Hl.
    rewrite list_lookup_alter_ne; [apply Hkeep, Hl |].
    apply lookup_lt_Some in Hl. lia.
  - apply assign_by_map_stable in E. destruct E as [Hlen Hsame]. intros [= <- <-].
    split; [exact Hlen |]. intros l c Hl. rewrite Hsame; [exact Hl |].
    eapply lookup_lt_Some, Hl.
Qed.

(** X13: appending to itself a plain circuit that holds gates only, with
    [expand] true in the argument or on the circuit, repeats its gates:
    the [gate_list] becomes the old one twice over. *)
Theorem self_append_repeats_gates (depth : nat) h (A : loc) (kwargs : kwargs_t) :
  wf_heap h ->
  (A < length h)%nat ->
  class_of (h !!! A) = Circuit ->
  gates_only (h !!! A) = true ->
  truthy (expand_argument kwargs) || expand (h !!! A) = true ->
  (length h < depth)%nat ->
  exists h',
    append depth A (OCircuit A) kwargs h = (Ret tt, h')
    /\ gate_list (h' !!! A) = gate_list (h !!! A) ++ gate_list (h !!! A)
    /\ involved_qubits (h' !!! A) = involved_qubits (h !!! A).
Proof.
  intros Hwf HA Hclass Hgates Hexpand Hdepth.
  destruct (append_self_circuit depth h A kwargs Hwf HA Hclass Hdepth)
    as (h1 & gl & Hst & _ & Hcopy & E).
  rewrite Hexpand in E. eexists. split; [exact E |].
  assert (A < length h1)%nat as HA1 by (destruct Hst as [? _]; lia).
  rewrite lookup_total_alter_twice by exact HA1.
  rewrite (lookup_total_stable _ _ _ _ Hst HA). simpl.
  split; [| apply merge_qubits_self]. f_equal.
  unfold gates_only in Hgates. revert Hgates. clear -Hcopy.
  induction Hcopy as [|[g|l] [g'|l'] l1 l2 Hsame _ IH]; simpl in *;
    try contradiction; try discriminate; [reflexivity |].
  intros Hg. subst. f_equal. apply IH, Hg.
Qed.

(** X14: what makes a fragment appendable is [assign]: for a fragment
    holding gates only and arguments that parse to a covering map,
    [A.append(f.assign(...))] succeeds and puts the bound circuit, a new
    plain circuit with [expand = False], as one nested entry of
    [A.gate_list], or its bound gates one by one under [expand=True]. *)
Theorem assigned_fragment_appends (depth depth' : nat) h (A f : loc) (qubit_map : qmap)
    (args : list value) (kwargs append_kwargs : kwargs_t) :
  (A < length h)%nat ->
  (f < length h)%nat ->
  class_of (h !!! f) = Fragment ->
  gates_only (h !!! f) = true ->
  check_qubit_map_loop (involved_qubits (h !!! f)) qubit_map = true ->
  (if (0 <? length args)%nat then _parse_qubit_map_from_list args
   else _parse_qubit_map_from_kwargs kwargs) = Ret qubit_map ->
  exists h',
    (R <- assign (S depth) f args kwargs ;;
     append depth' A (OCircuit R) append_kwargs) h = (Ret tt, h')
    /\ h' !! length h = Some (set_expand false (bound_circuit (h !!! f) qubit_map))
    /\ gate_list (h' !!! A)
       = gate_list (h !!! A) ++
         (if truthy (expand_argument append_kwargs)
          then assigned_gates qubit_map (gate_list (h !!! f))
          else [ECirc (length h)]).
Proof.
  intros HA Hf Hclass Hgates Hcheck Hparse.
  unfold st_bind. rewrite assign_unfold, Hparse.
  rewrite (assign_by_map_bound depth h f qubit_map Hf Hgates Hcheck), Hclass.
  rewrite alter_snoc_new.
  set (R := set_expand false (bound_circuit (h !!! f) qubit_map)).
  assert (length h <> A) as Hne by lia.
  rewrite (append_other_circuit depth' (h ++ [R]) A (length h) append_kwargs);
    [| congruence | rewrite lookup_total_snoc_new; reflexivity].
  rewrite lookup_total_snoc_new. eexists. split; [reflexivity |].
  split.
  - rewrite !list_lookup_alter_ne by lia.
    rewrite lookup_app_r, Nat.sub_diag by lia. reflexivity.
  - rewrite lookup_total_alter_twice by (rewrite length_app; simpl; lia).
    rewrite lookup_total_snoc_old by exact HA. simpl. rewrite orb_false_r. reflexivity.
Qed.

End StoreTheorems.

(** ** The helpers and the argument parsers *)

(** X1: the overflow check returns [True] exactly when every qubit is
    below the bound, [False] exactly when one reaches it, and a
    concatenated list passes when both parts do. *)
Theorem check_qubit_overflow_characterised (qubits more : list Z) (n : Z) :
  (_check_qubit_overflow qubits n = true <-> forall q, q ∈ qubits -> q < n)
  /\ (_check_qubit_overflow qubits n = false <-> exists q, q ∈ qubits /\ n <= q)
  /\ _check_qubit_overflow (qubits ++ more) n
     = _check_qubit_overflow qubits n && _check_qubit_overflow more n.
Proof.
  split; [| split].
  - rewrite check_qubit_overflow_spec, Forall_forall. reflexivity.
  - induction qubits as [|q qubits IH]; simpl.
    + split; [discriminate | intros (q & Hq & _); inversion Hq].
    + destruct (Z.geb_spec q n) as [Hge | Hlt].
      * split; [intros _; exists q; split; [left | lia] | reflexivity].
      * rewrite IH. split.
        -- intros (q' & Hq' & Hn). exists q'. split; [right; exact Hq' | exact Hn].
        -- intros (q' & Hq' & Hn). apply elem_of_cons in Hq' as [-> | Hq']; [lia |].
           eauto.
  - induction qubits as [|q qubits IH]; simpl; [reflexivity |].
    destruct (q >=? n); [reflexivity | exact IH].
Qed.

(** X2: the key made of the letter q and the decimal text of an integer,
    as [str] prints it, parses back to that integer, negative ones
    included.  (As everywhere in this file, without the interpreter's
    configurable cap on the digits of a conversion.) *)
Theorem check_qubit_key_round_trip (z : Z) :
  _check_qubit_key ("q" +:+ pretty z) = Ret (Some z).
Proof.
  apply check_qubit_key_Some. exists (pretty z). split; [reflexivity |].
  apply pretty_Z_literal.
Qed.

(** X3: the keyword parser raises exactly when some keyword other than
    [n_qubit] is not of the q<int> form or carries a value that is not an
    [int]; what it raises is always a [RuntimeError]. *)
Theorem kwargs_rejected_iff (kwargs : kwargs_t) :
  ((exists e, _parse_qubit_map_from_kwargs kwargs = Raise e)
   <-> Exists bad_keyword kwargs)
  /\ (forall e, _parse_qubit_map_from_kwargs kwargs = Raise e ->
                exists msg, e = RuntimeError msg).
Proof.
  split.
  - apply parse_kwargs_loop_raises.
  - intros e. apply parse_kwargs_loop_runtime_error.
Qed.

(** X4: the map the keyword parser returns has each key once; its keys
    are exactly the integers that the keywords other than [n_qubit]
    parse to, and each value is the value of a keyword parsing to its
    key. *)
Theorem kwargs_map_keys (kwargs : kwargs_t) (qubit_map : qmap) :
  _parse_qubit_map_from_kwargs kwargs = Ret qubit_map ->
  NoDup qubit_map.*1
  /\ (forall q, dict_contains q qubit_map = true
                <-> exists key v, (key, v) ∈ kwargs /\ key <> "n_qubit"%string
                                  /\ _check_qubit_key key = Ret (Some q))
  /\ (forall q v, dict_lookup q qubit_map = Some v ->
                  exists key, (key, v) ∈ kwargs /\ key <> "n_qubit"%string
                              /\ _check_qubit_key key = Ret (Some q)).
Proof.
  intros Hparse.
  destruct (parse_kwargs_loop_keys kwargs [] qubit_map Hparse) as (Hnd & Hdom & Hval).
  split; [apply Hnd; constructor |]. split.
  - intros q. rewrite Hdom. split; [intros [H | H]; [discriminate | exact H] | auto].
  - intros q v Hq. destruct (Hval q v Hq) as [H | H]; [discriminate | exact H].
Qed.

Section AssignArguments.
Context {Gate Angle : Type} `{!GateContract Gate Angle}.
Implicit Types (h : list (circuit (Gate := Gate))) (c : circuit (Gate := Gate)).
Local Open Scope py_scope.

(** X5: a keyword that the parser rejects makes [assign] raise before
    anything is allocated: the store is exactly as before the call. *)
Theorem assign_bad_keyword_leaves_store (depth : nat) (self : loc) (kwargs : kwargs_t) h :
  Exists bad_keyword kwargs ->
  exists msg, assign depth self [] kwargs h = (Raise (RuntimeError msg), h).
Proof.
  intros Hbad. rewrite assign_unfold. simpl.
  apply parse_kwargs_loop_raises with (d := []) in Hbad as [e He].
  destruct (parse_kwargs_loop_runtime_error _ _ _ He) as [msg ->].
  exists msg. unfold _parse_qubit_map_from_kwargs. rewrite He. reflexivity.
Qed.

(** X6: the three ways of passing targets agree: a sequence of integer
    targets, the same targets in one list, and the keywords q0, q1, ...
    all parse to the map from position to target, and [assign] does the
    same under each. *)
Theorem assign_conventions_agree (depth : nat) (self : loc) (targets : list value) h :
  targets <> [] ->
  Forall (fun v => isinstance_int v = true) targets ->
  _parse_qubit_map_from_list targets = Ret (positions_from 0 targets)
  /\ _parse_qubit_map_from_list [VList targets] = Ret (positions_from 0 targets)
  /\ _parse_qubit_map_from_kwargs (keywords_from 0 targets)
     = Ret (positions_from 0 targets)
  /\ assign depth self targets [] h = assign depth self [VList targets] [] h
  /\ assign depth self [] (keywords_from 0 targets) h
     = assign depth self [VList targets] [] h.
Proof.
  intros Hne Hint.
  pose proof (parse_variadic_positions targets Hne Hint) as Hvar.
  pose proof (parse_list_positions targets) as Hlist.
  assert (_parse_qubit_map_from_kwargs (keywords_from 0 targets)
          = Ret (positions_from 0 targets)) as Hkw.
  { unfold _parse_qubit_map_from_kwargs.
    rewrite (parse_kwargs_positions targets Hint 0 []); [reflexivity |].
    intros k. discriminate. }
  split; [exact Hvar |]. split; [exact Hlist |]. split; [exact Hkw |].
  rewrite !assign_unfold.
  assert ((0 <? length targets)%nat = true) as ->
    by (destruct targets; [congruence | reflexivity]).
  change (0 <? length [VList targets])%nat with true.
  change (0 <? length (@nil value))%nat with false. cbv iota.
  rewrite Hvar, Hlist, Hkw. split; reflexivity.
Qed.

(** X7: a list of [n] targets covers the qubits 0 to n-1 and no other:
    on a circuit of gates, [assign] with the list returns the bound
    circuit when every involved qubit is among them, and otherwise
    raises for the uncovered map, an empty circuit left behind. *)
Theorem assign_list_covers_positions (depth : nat) h (self : loc) (targets : list value) :
  (self < length h)%nat ->
  gates_only (h !!! self) = true ->
  (Forall (fun q => 0 <= q < Z.of_nat (length targets)) (involved_qubits (h !!! self)) ->
   assign (S depth) self [VList targets] [] h
   = (Ret (length h),
      h ++ [if is_Fragment (class_of (h !!! self))
            then set_expand false (bound_circuit (h !!! self) (positions_from 0 targets))
            else bound_circuit (h !!! self) (positions_from 0 targets)]))
  /\ (~ Forall (fun q => 0 <= q < Z.of_nat (length targets))
          (involved_qubits (h !!! self)) ->
      assign (S depth) self [VList targets] [] h
      = (Raise (RuntimeError (not_cover_message [] (positions_from 0 targets))),
         h ++ [Circuit_init (name (h !!! self))])).
Proof.
  intros Hself Hgates.
  assert (check_qubit_map_loop (involved_qubits (h !!! self)) (positions_from 0 targets)
          = true
          <-> Forall (fun q => 0 <= q < Z.of_nat (length targets))
                (involved_qubits (h !!! self))) as Hcover.
  { rewrite check_qubit_map_loop_spec. apply Forall_iff. intros q.
    rewrite dict_contains_positions. simpl. lia. }
  split; intros Hrange; rewrite assign_unfold;
    change (0 <? length [VList targets])%nat with true; cbv iota;
    rewrite parse_list_positions.
  - apply Hcover in Hrange.
    rewrite (assign_by_map_bound depth h self _ Hself Hgates Hrange).
    destruct (class_of (h !!! self)); simpl; [reflexivity |].
    rewrite alter_snoc_new. reflexivity.
  - assert (check_qubit_map_loop (involved_qubits (h !!! self))
              (positions_from 0 targets) = false) as Hcheck.
    { destruct (check_qubit_map_loop _ _) eqn:E; [| reflexivity].
      exfalso. apply Hrange, Hcover. reflexivity. }
    rewrite (assign_by_map_uncovered depth h self _ Hself Hcheck). reflexivity.
Qed.

End AssignArguments.

(** ** Rendering *)

Lemma spaces_length (n : nat) : String.length (spaces n) = n.
Proof. induction n as [|n IH]; simpl; [reflexivity | rewrite IH; reflexivity]. Qed.

Lemma circuit_str_loop_app {E : Type} (entry_str : E -> result string)
    (l1 l2 : list E) (ret : string) :
  circuit_str_loop entry_str (l1 ++ l2) ret
  = result_bind (circuit_str_loop entry_str l1 ret)
      (fun text => circuit_str_loop entry_str l2 text).
Proof.
  revert ret. induction l1 as [|gate l1 IH]; intros ret; simpl; [reflexivity |].
  destruct (entry_str gate) as [text|e]; simpl; [apply IH | reflexivity].
Qed.

Section RenderingProperties.
Context {Gate Angle : Type} `{!GateContract Gate Angle}.
Variable gate_str : Gate -> string.
Variable hex_id : option string -> string.
Implicit Types (h : list (circuit (Gate := Gate))) (c : circuit (Gate := Gate)).
Local Open Scope py_scope.

Lemma gate_lines_app (l1 l2 : list Gate) :
  gate_lines gate_str (l1 ++ l2) = gate_lines gate_str l1 +:+ gate_lines gate_str l2.
Proof.
  induction l1 as [|g l1 IH]; simpl; [reflexivity |].
  rewrite IH, !string_app_assoc. reflexivity.
Qed.

Lemma circuit_str_loop_gates (entry_text : entry -> result string)
    (entries : list entry) :
  (forall g, entry_text (EGate g) = Ret (gate_str g)) ->
  forallb is_gate entries = true ->
  forall ret : string,
    circuit_str_loop entry_text entries ret
    = Ret (ret +:+ gate_lines gate_str (gates_of entries)).
Proof.
  intros Htext. induction entries as [|[g|l] entries IH]; simpl; intros Hgates ret.
  - rewrite string_app_nil_r. reflexivity.
  - rewrite Htext. simpl. rewrite (IH Hgates), !string_app_assoc. reflexivity.
  - discriminate.
Qed.

Lemma circuit_str_gates (depth : nat) h (self : loc) :
  gates_only (h !!! self) = true ->
  circuit_str gate_str hex_id depth h self
  = Ret (gate_lines gate_str (gates_of (gate_list (h !!! self)))).
Proof.
  intros Hgates. unfold circuit_str.
  rewrite (circuit_str_loop_gates _ _ (fun g => eq_refl) Hgates). reflexivity.
Qed.

Lemma gates_of_assigned (qubit_map : qmap) (entries : list entry) :
  gates_of (assigned_gates qubit_map entries)
  = gate_assign_by_map qubit_map <$> gates_of entries.
Proof.
  induction entries as [|[g|l] entries IH]; simpl; [reflexivity | | exact IH].
  f_equal. exact IH.
Qed.

Lemma assigned_gates_only (qubit_map : qmap) (entries : list entry) :
  forallb is_gate (assigned_gates qubit_map entries) = forallb is_gate entries.
Proof.
  induction entries as [|[g|l] entries IH]; simpl; [reflexivity | exact IH | reflexivity].
Qed.

Lemma circuit_repr_plain (depth : nat) h (l : loc) :
  fragment (h !!! l) = false ->
  expand (h !!! l) = true ->
  gates_only (h !!! l) = true ->
  Circuit_repr gate_str hex_id (S depth) h l
  = Ret (gate_lines gate_str (gates_of (gate_list (h !!! l)))).
Proof.
  intros Hfrag Hexpand Hgates. cbn [Circuit_repr]. rewrite Hfrag, Hexpand. cbn [negb].
  rewrite (circuit_str_loop_gates _ _ (fun g => eq_refl) Hgates). reflexivity.
Qed.

(** X15: end to end, for a plain circuit of gates and arguments that
    parse to a covering map: the circuit [assign] returns renders as the
    same gates, each bound by the map, in the original order, one per
    line; the original renders as before. *)
Theorem assigned_circuit_renders_bound_gates (depth depth' : nat) h (self : loc)
    (qubit_map : qmap) (args : list value) (kwargs : kwargs_t) :
  (self < length h)%nat ->
  class_of (h !!! self) = Circuit ->
  gates_only (h !!! self) = true ->
  check_qubit_map_loop (involved_qubits (h !!! self)) qubit_map = true ->
  (if (0 <? length args)%nat then _parse_qubit_map_from_list args
   else _parse_qubit_map_from_kwargs kwargs) = Ret qubit_map ->
  exists h',
    assign (S depth) self args kwargs h = (Ret (length h), h')
    /\ Circuit_repr gate_str hex_id (S depth') h' (length h)
       = Ret (gate_lines gate_str
                (gate_assign_by_map qubit_map <$> gates_of (gate_list (h !!! self))))
    /\ circuit_str gate_str hex_id depth' h' self
       = circuit_str gate_str hex_id depth' h self.
Proof.
  intros Hself Hclass Hgates Hcheck Hparse.
  rewrite assign_unfold, Hparse.
  rewrite (assign_by_map_bound depth h self qubit_map Hself Hgates Hcheck), Hclass.
  eexists. split; [reflexivity |]. split.
  - rewrite circuit_repr_plain; rewrite lookup_total_snoc_new; try reflexivity.
    + simpl gate_list. rewrite gates_of_assigned. reflexivity.
    + unfold gates_only. simpl gate_list. rewrite assigned_gates_only. exact Hgates.
  - rewrite !circuit_str_gates by
      (try rewrite lookup_total_snoc_old by exact Hself; exact Hgates).
    rewrite lookup_total_snoc_old by exact Hself. reflexivity.
Qed.

(** X16: a nested circuit shows in its parent as one line.  After
    [A.append(R)] nests the named plain circuit [R] ([expand] false) in
    a circuit [A] of gates, [A] renders as its gates followed by the line
    of [R]: its name and its mapping, or its involved qubits when no
    mapping is recorded. *)
Theorem nested_circuit_renders_one_line (depth depth' : nat) h (A R : loc)
    (kwargs : kwargs_t) :
  (A < length h)%nat ->
  A <> R ->
  class_of (h !!! R) = Circuit ->
  fragment (h !!! R) = false ->
  expand (h !!! R) = false ->
  name_truthy (name (h !!! R)) = true ->
  truthy (expand_argument kwargs) = false ->
  gates_only (h !!! A) = true ->
  exists h',
    append depth A (OCircuit R) kwargs h = (Ret tt, h')
    /\ circuit_str gate_str hex_id (S depth') h' A
       = Ret (gate_lines gate_str (gates_of (gate_list (h !!! A)))
              +:+ name_text (name (h !!! R))
              +:+ match mapping_truthy (mapping (h !!! R)) with
                  | Some m => " qubit_mapping: " +:+ repr_dict m
                  | None => " q" +:+ repr_qubits (involved_qubits (h !!! R))
                  end
              +:+ ";" +:+ newline).
Proof.
  intros HA Hne Hclass Hfrag Hexpand Hname Hkw Hgates.
  rewrite (append_other_circuit depth h A R kwargs Hne Hclass), Hkw, Hexpand.
  eexists. split; [reflexivity |].
  unfold circuit_str. rewrite lookup_total_alter_twice by exact HA. simpl gate_list.
  rewrite circuit_str_loop_app.
  rewrite (circuit_str_loop_gates _ _ (fun g => eq_refl) Hgates). cbn [result_bind].
  cbn [circuit_str_loop entry_str Circuit_repr].
  rewrite !list_lookup_total_alter_ne by exact Hne.
  rewrite Hfrag, Hexpand, Hname. cbn [negb].
  destruct (mapping_truthy (mapping (h !!! R))); cbn [result_bind];
    rewrite !string_app_assoc; reflexivity.
Qed.

(** X17: a fragment of gates renders as a header line, its label
    centred in 25 columns between dashes, followed by its gates; without
    a name, [None] or empty, rendering raises.  The centred field is 25
    wide, or as wide as a longer label. *)
Theorem fragment_renders_with_header (depth : nat) h (f : loc) (label : string) :
  fragment (h !!! f) = true ->
  gates_only (h !!! f) = true ->
  Circuit_repr gate_str hex_id (S depth) h f
  = (if name_truthy (name (h !!! f))
     then Ret ("---" +:+ format_center 25 ("Fragment " +:+ name_text (name (h !!! f)))
               +:+ "---" +:+ newline
               +:+ gate_lines gate_str (gates_of (gate_list (h !!! f))))
     else Raise (RuntimeError "Fatal: Unexpected noname fragment."))
  /\ String.length (format_center 25 label) = Nat.max 25 (String.length label).
Proof.
  intros Hfrag Hgates. split.
  - cbn [Circuit_repr]. rewrite Hfrag.
    destruct (name_truthy (name (h !!! f))); cbn [negb]; [| reflexivity].
    rewrite (circuit_str_loop_gates _ _ (fun g => eq_refl) Hgates). cbn [result_bind].
    rewrite !string_app_assoc. reflexivity.
  - unfold format_center. rewrite !string_length_app, !spaces_length.
    pose proof (Nat.div_mod_eq (25 - String.length label) 2) as Hdiv.
    pose proof (Nat.mod_upper_bound (25 - String.length label) 2 ltac:(lia)) as Hmod.
    lia.
Qed.

End RenderingProperties.

(** ** [QProg] *)

(** X18: no method of [QProg] sets [has_measure]: after any sequence of
    appends to a new program the flag is still false and [dagger]
    returns without raising; the program holds the appended gates in
    order and its text reports their number.  The constructor warns
    exactly when both sizes are falsy. *)
Theorem qprog_append_sequence {G : Type} (n_qubit n_cbit : value) (gates : list G) :
  let p := foldl QProgram.append (fst (QProgram.init n_qubit n_cbit)) gates in
  QProgram.has_measure p = false
  /\ QProgram.dagger p = Ret tt
  /\ QProgram.gate_list p = gates
  /\ QProgram.qprog_repr p
     = repr n_qubit +:+ " qubits" +:+ newline
       +:+ repr n_cbit +:+ " cbits" +:+ newline
       +:+ pretty (Z.of_nat (length gates)) +:+ " gates" +:+ newline
  /\ (snd (QProgram.init (G := G) n_qubit n_cbit) = []
      <-> truthy n_qubit = true \/ truthy n_cbit = true).
Proof.
  cbv zeta.
  assert (forall (p : QProgram.QProg G),
            QProgram.has_measure (foldl QProgram.append p gates) = QProgram.has_measure p
            /\ QProgram.gate_list (foldl QProgram.append p gates)
               = QProgram.gate_list p ++ gates
            /\ QProgram.n_qubit (foldl QProgram.append p gates) = QProgram.n_qubit p
            /\ QProgram.n_cbit (foldl QProgram.append p gates) = QProgram.n_cbit p)
    as Hfold.
  { induction gates as [|g gates IH]; intros p; simpl.
    - rewrite app_nil_r. auto.
    - destruct (IH (QProgram.append p g)) as (Hm & Hg & Hq & Hc).
      rewrite Hm, Hg, Hq, Hc. simpl. rewrite <- app_assoc. auto. }
  set (p0 := fst (QProgram.init n_qubit n_cbit)).
  destruct (Hfold p0) as (Hm & Hg & Hq & Hc).
  split; [rewrite Hm; reflexivity |].
  split; [unfold QProgram.dagger; rewrite Hm; reflexivity |].
  split; [rewrite Hg; reflexivity |]. split.
  - unfold QProgram.qprog_repr. rewrite Hg, Hq, Hc. reflexivity.
  - unfold QProgram.init. simpl.
    destruct (truthy n_qubit), (truthy n_cbit); simpl;
      split; auto; try discriminate; intros [H | H]; discriminate.
Qed.

Section NestedAndRecomputed.
Context {Gate Angle : Type} `{!GateContract Gate Angle}.
Implicit Types (h : list (circuit (Gate := Gate))) (c : circuit (Gate := Gate)).
Local Open Scope py_scope.

(** ** Nested entries and recomputed qubits *)

Lemma assign_gates_nested_raises (gate_assign : entry -> M entry) (ret : loc)
    (gates : list entry) :
  (forall l h a h', gate_assign (ECirc l) h = (Ret a, h') -> exists l', a = ECirc l') ->
  Exists (fun e => is_gate e = false) gates ->
  (forall g h, exists g', gate_assign (EGate g) h = (Ret (EGate g'), h)) ->
  forall h, exists e h', assign_gates gate_assign ret gates h = (Raise e, h').
Proof.
  intros Hnested Hex Hgate. induction Hex as [[g|l] rest Hhead | [g|l] rest _ IH];
    intros h; simpl; unfold st_bind.
  - discriminate Hhead.
  - destruct (gate_assign (ECirc l) h) as [[a|e] h1] eqn:E; [| eauto].
    destruct (Hnested _ _ _ _ E) as [l' ->].
    unfold _append_gate, call_involved_qubits, st_bind, raise. eauto.
  - destruct (Hgate g h) as [g' ->].
    destruct (_append_gate ret (EGate g') h) as [[[]|e] h1]; [apply IH | eauto].
  - destruct (gate_assign (ECirc l) h) as [[a|e] h1] eqn:E; [| eauto].
    destruct (Hnested _ _ _ _ E) as [l' ->].
    unfold _append_gate, call_involved_qubits, st_bind, raise. eauto.
Qed.

(** X19: a circuit that holds a nested circuit cannot be assigned:
    whatever the map and the recursion limit, [assign_by_map] raises,
    the bound nested circuit being refused by [_append_gate] if nothing
    fails before. *)
Theorem assign_by_map_nested_raises (depth : nat) h (self : loc) (qubit_map : qmap) :
  gates_only (h !!! self) = false ->
  (self < length h)%nat ->
  exists e h', assign_by_map depth self qubit_map h = (Raise e, h').
Proof.
  intros Hnested Hself. destruct depth as [|depth]; simpl; [unfold raise; eauto |].
  unfold _check_qubit_map. run_py.
  rewrite lookup_total_snoc_old by exact Hself.
  destruct (check_qubit_map_loop _ _); simpl; [| eauto].
  rewrite list_lookup_total_alter_ne by lia.
  rewrite lookup_total_snoc_old by exact Hself.
  match goal with
  | |- context [assign_gates ?ga ?ret ?gl ?s] =>
      destruct (assign_gates_nested_raises ga ret gl) with (h := s) as (e & h' & E)
  end.
  - intros l s a s'. simpl.
    destruct (assign_by_map depth l qubit_map s) as [[l'|e] s1]; [| discriminate].
    intros [= <- _]. eauto.
  - unfold gates_only in Hnested. apply Exists_exists.
    destruct (forallb is_gate (gate_list (h !!! self))) eqn:Hall; [discriminate |].
    clear -Hall. induction (gate_list (h !!! self)) as [|e l IH]; [discriminate |].
    simpl in Hall. destruct (is_gate e) eqn:He.
    + destruct (IH Hall) as (x & Hx & Hgx). exists x. split; [right; exact Hx | exact Hgx].
    + exists e. split; [left | exact He].
  - intros g s. eauto.
  - rewrite E. eauto.
Qed.

Lemma collect_qubits_elem (entries : list entry) :
  forall (involved : list Z) (q : Z),
    q ∈ collect_qubits involved entries
    <-> q ∈ involved
        \/ exists g, g ∈ gates_of entries /\ q ∈ gate_involved_qubits g.
Proof.
  unfold collect_qubits.
  induction entries as [|[g|l] entries IH]; intros involved q; simpl.
  - split; [auto | intros [? | (g & Hg & _)]; [assumption | inversion Hg]].
  - rewrite IH, merge_qubits_elem. split.
    + intros [[? | Hq] | (g' & Hg' & Hq)]; [auto | |].
      * right. exists g. split; [left | exact Hq].
      * right. exists g'. split; [right; exact Hg' | exact Hq].
    + intros [? | (g' & Hg' & Hq)]; [auto |].
      apply elem_of_cons in Hg' as [-> | Hg']; [auto |]. right. eauto.
  - rewrite IH. reflexivity.
Qed.

Lemma collect_qubits_NoDup (entries : list entry) :
  forall involved : list Z, NoDup involved -> NoDup (collect_qubits involved entries).
Proof.
  unfold collect_qubits.
  induction entries as [|e entries IH]; intros involved Hnd; simpl.
  - exact Hnd.
  - apply IH, merge_qubits_NoDup, Hnd.
Qed.

(** X20: the circuit [assign_by_map] returns has its involved qubits
    computed anew from the bound gates, not copied from the original:
    they are exactly the qubits of the bound gates, each listed once. *)
Theorem assigned_qubits_recomputed (depth : nat) h (self : loc) (qubit_map : qmap) :
  (self < length h)%nat ->
  gates_only (h !!! self) = true ->
  check_qubit_map_loop (involved_qubits (h !!! self)) qubit_map = true ->
  exists h',
    assign_by_map (S depth) self qubit_map h = (Ret (length h), h')
    /\ NoDup (involved_qubits (h' !!! length h))
    /\ forall q, q ∈ involved_qubits (h' !!! length h)
                 <-> exists g, g ∈ gates_of (gate_list (h !!! self))
                               /\ q ∈ gate_involved_qubits (gate_assign_by_map qubit_map g).
Proof.
  intros Hself Hgates Hcheck.
  rewrite (assign_by_map_bound depth h self qubit_map Hself Hgates Hcheck).
  eexists. split; [reflexivity |]. rewrite lookup_total_snoc_new. simpl.
  split; [apply collect_qubits_NoDup; constructor |].
  intros q. rewrite collect_qubits_elem. split.
  - intros [Hq | (g & Hg & Hq)]; [inversion Hq |].
    revert Hg. clear -Hq. induction (gate_list (h !!! self)) as [|[g0|l] l0 IH]; simpl.
    + intros Hg. inversion Hg.
    + intros [-> | Hg]%elem_of_cons.
      * exists g0. split; [left | exact Hq].
      * destruct (IH Hg) as (g1 & Hg1 & Hq1). exists g1. split; [right; exact Hg1 | exact Hq1].
    + exact IH.
  - intros (g & Hg & Hq). right. exists (gate_assign_by_map qubit_map g).
    split; [| exact Hq]. revert Hg. clear.
    induction (gate_list (h !!! self)) as [|[g0|l] l0 IH]; simpl.
    + intros Hg. inversion Hg.
    + intros [-> | Hg]%elem_of_cons; [left | right; apply IH, Hg].
    + exact IH.
Qed.

End NestedAndRecomputed.

(** * The further properties at concrete inputs *)

(** [q1=5, n_qubit=3, q01=6]: both keywords parse to 1, the later value
    stays. *)
Lemma kwargs_map_keys_witness : NoDup [(1, VInt 6)].*1.
Proof.
  apply (kwargs_map_keys [("q1", VInt 5); ("n_qubit", VInt 3); ("q01", VInt 6)]%string
           [(1, VInt 6)]).
  reflexivity.
Defined.

(** [Circuit().assign(x7=1)] *)
Lemma assign_bad_keyword_leaves_store_witness :
  exists msg,
    assign 1 0%nat [] [("x7", VInt 1)]%string RotationGates.fresh_store
    = (Raise (RuntimeError msg), RotationGates.fresh_store).
Proof.
  apply (assign_bad_keyword_leaves_store 1 0%nat [("x7", VInt 1)]%string
           RotationGates.fresh_store).
  constructor. split; [discriminate | left; reflexivity].
Defined.

(** [c.assign(5, 6, 7)], [c.assign([5, 6, 7])], [c.assign(q0=5, q1=6, q2=7)] *)
Lemma assign_conventions_agree_witness :
  assign 1 0%nat [VInt 5; VInt 6; VInt 7] [] Scenarios.three_qubit_store
  = assign 1 0%nat [VList [VInt 5; VInt 6; VInt 7]] [] Scenarios.three_qubit_store.
Proof.
  apply (assign_conventions_agree 1 0%nat [VInt 5; VInt 6; VInt 7]
           Scenarios.three_qubit_store).
  - discriminate.
  - repeat constructor.
Defined.

(** [c.assign([5, 6])] on the three-qubit circuit: qubit 2 is not covered. *)
Lemma assign_list_covers_positions_witness :
  assign 1 0%nat [VList [VInt 5; VInt 6]] [] Scenarios.three_qubit_store
  = (Raise (RuntimeError
              (not_cover_message [] (positions_from 0 [VInt 5; VInt 6]))),
     Scenarios.three_qubit_store ++ [Circuit_init None]).
Proof.
  destruct (assign_list_covers_positions 0 Scenarios.three_qubit_store 0%nat
              [VInt 5; VInt 6]) as [_ Hout].
  - simpl. lia.
  - reflexivity.
  - apply Hout. intros Hall.
    assert (0 <= 2 < Z.of_nat (length [VInt 5; VInt 6])) as Hbad; [| simpl in Hbad; lia].
    rewrite Forall_forall in Hall. apply Hall. right. right. left.
Defined.

Lemma fresh_store_ok : store_ok RotationGates.fresh_store.
Proof.
  constructor; [| constructor].
  split; [intros g q Hg; inversion Hg | constructor].
Qed.

(** [c.rx(3, 'a')] on a new circuit. *)
Lemma involved_qubits_cover_gates_witness :
  store_ok (snd (rx 0%nat 3 "a"%string RotationGates.fresh_store)).
Proof.
  apply (involved_qubits_cover_gates 1 0%nat (OOther VNone) [] [] 3 "a"%string None
           RotationGates.fresh_store).
  exact fresh_store_ok.
Defined.

(** [R.append(R)] for the assigned fragment: the fragment at 0 is as it
    was. *)
Lemma append_changes_only_receiver_witness :
  snd (append 3 1%nat (OCircuit 1%nat) [] Scenarios.assigned_fragment_store) !! 0%nat
  = Scenarios.assigned_fragment_store !! 0%nat.
Proof.
  destruct (append_changes_only_receiver 3 1%nat (OCircuit 1%nat) []
              Scenarios.assigned_fragment_store
              (fst (append 3 1%nat (OCircuit 1%nat) [] Scenarios.assigned_fragment_store))
              (snd (append 3 1%nat (OCircuit 1%nat) [] Scenarios.assigned_fragment_store)))
    as (_ & Hothers & _).
  - reflexivity.
  - apply Hothers; [simpl; lia | discriminate].
Defined.

(** [c.append(c)] on the three-qubit circuit. *)
Lemma append_only_grows_witness :
  gate_list (Scenarios.three_qubit_store !!! 0%nat)
  `prefix_of`
  gate_list (snd (append 2 0%nat (OCircuit 0%nat) [] Scenarios.three_qubit_store)
             !!! 0%nat).
Proof.
  apply (append_only_grows 2 0%nat (OCircuit 0%nat) [] Scenarios.three_qubit_store
           (fst (append 2 0%nat (OCircuit 0%nat) [] Scenarios.three_qubit_store))
           (snd (append 2 0%nat (OCircuit 0%nat) [] Scenarios.three_qubit_store))).
  - simpl. lia.
  - reflexivity.
Defined.

(** Appending a gate on qubit 1, already involved, to the three-qubit
    circuit. *)
Lemma append_gate_bookkeeping_witness :
  exists h',
    _append_gate 0%nat (EGate (Rx 1 "d"%string)) Scenarios.three_qubit_store = (Ret tt, h')
    /\ gate_list (h' !!! 0%nat)
       = gate_list (Scenarios.three_qubit_store !!! 0%nat) ++ [EGate (Rx 1 "d"%string)].
Proof.
  destruct (append_gate_bookkeeping 0%nat (Rx 1 "d"%string) Scenarios.three_qubit_store)
    as (h' & E & Hlist & _).
  - simpl. lia.
  - exists h'. split; [exact E | exact Hlist].
Defined.

(** [A.assign()] on the circuit holding a nested entry: it raises, and
    the store keeps its objects. *)
Lemma assign_never_mutates_witness :
  snd (assign 3 2%nat [] [] Scenarios.nested_store) !! 2%nat
  = Some (Scenarios.nested_store !!! 2%nat).
Proof.
  destruct (assign_never_mutates 3 2%nat [] [] Scenarios.nested_store
              (fst (assign 3 2%nat [] [] Scenarios.nested_store))
              (snd (assign 3 2%nat [] [] Scenarios.nested_store)))
    as [_ Hkept].
  - reflexivity.
  - apply Hkept. reflexivity.
Defined.

(** [c.append(c)] on the three-qubit circuit: six gates. *)
Lemma self_append_repeats_gates_witness :
  exists h',
    append 2 0%nat (OCircuit 0%nat) [] Scenarios.three_qubit_store = (Ret tt, h')
    /\ gate_list (h' !!! 0%nat)
       = gate_list (Scenarios.three_qubit_store !!! 0%nat)
         ++ gate_list (Scenarios.three_qubit_store !!! 0%nat).
Proof.
  destruct (self_append_repeats_gates 2 Scenarios.three_qubit_store 0%nat [])
    as (h' & E & Hlist & _).
  - exact three_qubit_store_wf.
  - simpl. lia.
  - reflexivity.
  - reflexivity.
  - reflexivity.
  - simpl. lia.
  - exists h'. split; [exact E | exact Hlist].
Defined.

Local Open Scope py_scope.

(** [A.append(f.assign(q0=5))] *)
Lemma assigned_fragment_appends_witness :
  exists h',
    (R <- assign 1 0%nat [] [("q0", VInt 5)]%string ;;
     append 1 1%nat (OCircuit R) []) MoreScenarios.fragment_store = (Ret tt, h')
    /\ gate_list (h' !!! 1%nat)
       = gate_list (MoreScenarios.fragment_store !!! 1%nat) ++ [ECirc 2%nat].
Proof.
  destruct (assigned_fragment_appends 0 1 MoreScenarios.fragment_store 1%nat 0%nat
              [(0, VInt 5)] [] [("q0", VInt 5)]%string [])
    as (h' & E & _ & Hlist).
  - simpl. lia.
  - simpl. lia.
  - reflexivity.
  - reflexivity.
  - reflexivity.
  - reflexivity.
  - exists h'. split; [exact E | exact Hlist].
Defined.

(** [c.assign(q0=5, q1=6, q2=7)] rendered. *)
Lemma assigned_circuit_renders_bound_gates_witness :
  exists h',
    assign 1 0%nat [] [("q0", VInt 5); ("q1", VInt 6); ("q2", VInt 7)]%string
      Scenarios.three_qubit_store = (Ret 1%nat, h')
    /\ Circuit_repr MoreScenarios.gate_text (fun _ => "0x0"%string) 1 h' 1%nat
       = Ret ("RX q5 a;" +:+ newline +:+ "RX q6 b;" +:+ newline
              +:+ "RX q7 c;" +:+ newline)%string.
Proof.
  destruct (assigned_circuit_renders_bound_gates MoreScenarios.gate_text
              (fun _ => "0x0"%string) 0 0 Scenarios.three_qubit_store 0%nat
              [(0, VInt 5); (1, VInt 6); (2, VInt 7)] []
              [("q0", VInt 5); ("q1", VInt 6); ("q2", VInt 7)]%string)
    as (h' & E & Hrepr & _).
  - simpl. lia.
  - reflexivity.
  - reflexivity.
  - reflexivity.
  - reflexivity.
  - exists h'. split; [exact E | exact Hrepr].
Defined.

(** [A.append(R)] for the bound fragment [R], then [A.circuit_str()]. *)
Lemma nested_circuit_renders_one_line_witness :
  exists h',
    append 1 1%nat (OCircuit 2%nat) [] MoreScenarios.bound_fragment_store = (Ret tt, h')
    /\ circuit_str MoreScenarios.gate_text (fun _ => "0x0"%string) 1 h' 1%nat
       = Ret ("RY q1 b;" +:+ newline +:+ "f qubit_mapping: {0: 5};" +:+ newline)%string.
Proof.
  destruct (nested_circuit_renders_one_line MoreScenarios.gate_text
              (fun _ => "0x0"%string) 1 0 MoreScenarios.bound_fragment_store
              1%nat 2%nat [])
    as (h' & E & Hstr).
  - simpl. lia.
  - discriminate.
  - reflexivity.
  - reflexivity.
  - reflexivity.
  - reflexivity.
  - reflexivity.
  - reflexivity.
  - exists h'. split; [exact E | exact Hstr].
Defined.

(** [repr(f)] for the fragment named f holding one gate. *)
Lemma fragment_renders_with_header_witness :
  Circuit_repr MoreScenarios.gate_text (fun _ => "0x0"%string) 1
    MoreScenarios.fragment_store 0%nat
  = Ret ("---       Fragment f        ---" +:+ newline
         +:+ "RX q0 a;" +:+ newline)%string.
Proof.
  apply (fragment_renders_with_header MoreScenarios.gate_text (fun _ => "0x0"%string)
           0 MoreScenarios.fragment_store 0%nat "").
  - reflexivity.
  - reflexivity.
Defined.

(** [A.assign_by_map({})] on the circuit holding a nested entry. *)
Lemma assign_by_map_nested_raises_witness :
  exists e h', assign_by_map 5 2%nat [] Scenarios.nested_store = (Raise e, h').
Proof.
  apply (assign_by_map_nested_raises 5 Scenarios.nested_store 2%nat []).
  - reflexivity.
  - simpl. lia.
Defined.

(** Binding the three qubits to one target: one involved qubit. *)
Lemma assigned_qubits_recomputed_witness :
  exists h',
    assign_by_map 1 0%nat [(0, VInt 4); (1, VInt 4); (2, VInt 4)]
      Scenarios.three_qubit_store = (Ret 1%nat, h')
    /\ NoDup (involved_qubits (h' !!! 1%nat)).
Proof.
  destruct (assigned_qubits_recomputed 0 Scenarios.three_qubit_store 0%nat
              [(0, VInt 4); (1, VInt 4); (2, VInt 4)])
    as (h' & E & Hnd & _).
  - simpl. lia.
  - reflexivity.
  - reflexivity.
  - exists h'. split; [exact E | exact Hnd].
Defined.
